(** * Fee calculation and tip limiting (lib/utils.ts)

    A shallow embedding of the two pieces of logic of the utility module
    that carry an arithmetic or algorithmic contract:

    - [calculateFee]: the withdrawal fee of an amount of sats;
    - [limitTips]: the selection of the tips withdrawable at once.

    The constants [FEE_PERCENT], [MINIMUM_FEE_SATS], [MAX_TIP_SATS] and
    [MAX_TIPS_WITHDRAWABLE] are imported by the module from lib/constants;
    they are parameters of every definition below.

    Modelling of JavaScript numbers.  Amounts of sats are integers, and are
    modelled as [Z].  The percentage [FEE_PERCENT / 100] and the products
    [amount * (FEE_PERCENT / 100)] are modelled as exact rationals ([Q]),
    [Math.ceil] as [Qceiling] and [Math.max] as [Z.max].  Module [Binary64]
    transcribes [calculateFee] a second time over IEEE 754 double precision
    numbers, the numbers JavaScript computes with, and
    [calculateFee64_exact] proves that at one percent, the percentage the
    comment in [calculateFee] names, both transcriptions compute the same
    fee for every amount and minimum fee below [2 ^ 52] sats.

    Module [Utils] embeds the utilities of the module that work on strings:
    [getHashCode], [getFallbackAvatarId], [getAvatarUrl],
    [getUserAvatarUrl], [nth], [truncate], [getAppUrl], [getRedeemUrl],
    [isValidNostrConnectUrl], [generatePassphrase] and
    [getUpdatedPassphrase]. *)

From Stdlib Require Import ZArith QArith Qround Lia Lqa List Bool.
From Stdlib Require Import DecimalString.
From Stdlib Require Import Floats.SpecFloat.
From Stdlib Require Import Sorting.Sorted Sorting.Permutation.
From stdpp Require Import base list strings.

(** ** calculateFee *)

Section FeeCalculator.

Variable FEE_PERCENT : Q.
Variable MINIMUM_FEE_SATS : Z.

(** [FEE_PERCENT / 100], the factor both products of the source use. *)
Definition feeFactor : Q := (FEE_PERCENT / 100)%Q.

(** The local constant [originalFee] of [calculateFee]:
    [Math.max(MINIMUM_FEE_SATS, Math.ceil(amount * (FEE_PERCENT / 100)))]. *)
Definition originalFee (amount : Z) : Z :=
  Z.max MINIMUM_FEE_SATS (Qceiling (inject_Z amount * feeFactor)).

(** [calculateFee(amount)]: the fee recomputed on the amount plus the
    provisional fee. *)
Definition calculateFee (amount : Z) : Z :=
  Z.max MINIMUM_FEE_SATS
        (Qceiling (inject_Z (amount + originalFee amount) * feeFactor)).

(** The fee reserve the comment in [calculateFee] asks for, as the
    specification writes it: [fee >= ceil((amount + fee) * FEE_PERCENT / 100)]. *)
Definition feeReserveMet (amount fee : Z) : Prop :=
  (Qceiling (inject_Z (amount + fee) * FEE_PERCENT / 100) <= fee)%Z.

Definition feeReserveMetb (amount fee : Z) : bool :=
  (Qceiling (inject_Z (amount + fee) * FEE_PERCENT / 100) <=? fee)%Z.

End FeeCalculator.

(** ** calculateFee over IEEE 754 binary64 numbers

    JavaScript numbers are IEEE 754 double precision floats: 53 bits of
    precision, infinities at exponent 1024.  [SpecFloat] is the executable
    specification of their arithmetic that Rocq's primitive floats are
    checked against.  [calculateFee64] is [calculateFee] with every operation
    of the source taken in that arithmetic. *)

Module Binary64.

Definition prec : Z := 53.
Definition emax : Z := 1024.

Definition number : Type := spec_float.

(** An integer literal or integer value as a number. *)
Definition ofZ (z : Z) : number := binary_normalize prec emax z 0 false.

Definition mul : number -> number -> number := SFmul prec emax.
Definition add : number -> number -> number := SFadd prec emax.
Definition div : number -> number -> number := SFdiv prec emax.

(** [Math.ceil]: NaN, zeros and infinities are returned as they are, and so
    are the finite numbers with a non-negative exponent, which are integers;
    a negative number above -1 gives -0. *)
Definition Math_ceil (x : number) : number :=
  match x with
  | S754_finite s m e =>
      if (0 <=? e)%Z then x
      else
        let d := (2 ^ (- e))%Z in
        let q := (Zpos m / d)%Z in
        let r := (Zpos m mod d)%Z in
        if s then
          if (q =? 0)%Z then S754_zero true
          else binary_normalize prec emax (- q) 0 true
        else
          binary_normalize prec emax (if (r =? 0)%Z then q else q + 1) 0 false
  | _ => x
  end.

(** [Math.max] of two numbers: NaN if either is NaN, and +0 is larger
    than -0. *)
Definition Math_max (x y : number) : number :=
  match SFcompare x y with
  | None => S754_nan
  | Some Lt => y
  | Some Gt => x
  | Some Eq =>
      match x, y with
      | S754_zero true, S754_zero sy => S754_zero sy
      | _, _ => x
      end
  end.

(** The integer a number stands for, when it is one. *)
Definition toZ (x : number) : option Z :=
  match x with
  | S754_zero _ => Some 0%Z
  | S754_finite s m e =>
      if (0 <=? e)%Z then Some (cond_Zopp s (Zpos m * 2 ^ e))
      else if (Zpos m mod 2 ^ (- e) =? 0)%Z
           then Some (cond_Zopp s (Zpos m / 2 ^ (- e)))
           else None
  | _ => None
  end.

Section FeeCalculator64.

Variable FEE_PERCENT : number.
Variable MINIMUM_FEE_SATS : number.

Definition calculateFee64 (amount : number) : number :=
  let originalFee :=
    Math_max MINIMUM_FEE_SATS
             (Math_ceil (mul amount (div FEE_PERCENT (ofZ 100)))) in
  Math_max MINIMUM_FEE_SATS
           (Math_ceil (mul (add amount originalFee)
                           (div FEE_PERCENT (ofZ 100)))).

End FeeCalculator64.

(** *** Devices of the proofs about binary64

    What [k] steps of [shr_1] leave of a mantissa [m >= 0]: the quotient by
    [2 ^ k], the last bit shifted out, and whether any bit shifted out before
    it was set. *)
Definition shiftedOut (m : Z) (k : nat) : shr_record :=
  match k with
  | O => Build_shr_record m false false
  | S k' =>
      Build_shr_record (m / 2 ^ Z.of_nat k)%Z
                       (Z.odd (m / 2 ^ Z.of_nat k')%Z)
                       (negb (m mod 2 ^ Z.of_nat k' =? 0)%Z)
  end.

(** [x] is the normal binary64 number of value [n > 0], an integer below
    [2 ^ 53]: a mantissa of 53 bits and the exponent that goes with it. *)
Definition normalOf (x : number) (n : Z) : Prop :=
  exists (m : positive) (e : Z),
    x = S754_finite false m e
    /\ (Zpos (Pos.size m) = 53 /\ e <= 0 /\ Zpos m = n * 2 ^ (- e))%Z.

(** The mantissa of the binary64 number nearest to 1/100. *)
Definition hundredth : Z := 5764607523034235.

End Binary64.

(** ** Arrays in a store

    [limitTips] sorts the array it is given in place, copies a prefix of it
    into a new array and pops elements off the copy.  Arrays are therefore
    modelled as references into a store: what the caller sees after the
    call is what the store holds at the reference it passed. *)

(** A reference is the index of the array in the store. *)
Abbreviation ref := nat (only parsing).
Abbreviation store T := (list (list T)) (only parsing).

Section ArrayStore.

Context {T : Type}.

Inductive error : Type :=
| TypeError.   (* a method called on something that is not an array *)

Inductive outcome (A : Type) : Type :=
| Returned (a : A) (s : store T)
| Thrown (e : error)
| OutOfFuel.

Definition M (A : Type) : Type := store T -> outcome A.

Definition ret {A} (a : A) : M A := fun s => Returned A a s.

Definition bind {A B} (m : M A) (k : A -> M B) : M B :=
  fun s =>
    match m s with
    | Returned _ a s' => k a s'
    | Thrown _ e => Thrown B e
    | OutOfFuel _ => OutOfFuel B
    end.

Definition readArray (r : ref) : M (list T) :=
  fun s =>
    match s !! r with
    | Some l => Returned _ l s
    | None => Thrown _ TypeError
    end.

Definition writeArray (r : ref) (l : list T) : M unit :=
  fun s =>
    match s !! r with
    | Some _ => Returned _ tt (<[r := l]> s)
    | None => Thrown _ TypeError
    end.

Definition newArray (l : list T) : M ref :=
  fun s => Returned _ (length s) (s ++ [l]).

End ArrayStore.

Arguments M : clear implicits.
Arguments outcome : clear implicits.
Arguments Returned {T A} a s.
Arguments Thrown {T A} e.
Arguments OutOfFuel {T A}.

Declare Scope js_scope.
Delimit Scope js_scope with js.
Notation "x <- m ;; k" := (bind m (fun x => k))
  (at level 100, m at next level, right associativity) : js_scope.
Notation "m ;;; k" := (bind m (fun _ => k))
  (at level 100, right associativity) : js_scope.

(** *** The array methods [limitTips] calls *)

Section ArrayMethods.

Context {T : Type}.

(** Insertion of [x] in a list sorted by [comparefn], [x] coming from
    before every element of the list: [x] moves past [y] only when
    [comparefn(x, y) > 0], so that elements that compare equal keep their
    order. *)
Fixpoint sortInsert (comparefn : T -> T -> Z) (x : T) (l : list T) : list T :=
  match l with
  | [] => [x]
  | y :: l' =>
      if (0 <? comparefn x y)%Z then y :: sortInsert comparefn x l'
      else x :: l
  end.

(** The order [Array.prototype.sort] leaves the elements in: sorted by
    [comparefn], stable (ECMAScript 2019 and later). *)
Fixpoint sorted (comparefn : T -> T -> Z) (l : list T) : list T :=
  match l with
  | [] => []
  | x :: l' => sortInsert comparefn x (sorted comparefn l')
  end.

(** [arr.sort(comparefn)] sorts the array in place and returns the same
    reference. *)
Definition Array_sort (comparefn : T -> T -> Z) (arr : ref) : M T ref :=
  (l <- readArray arr ;;
   writeArray arr (sorted comparefn l) ;;;
   ret arr)%js.

(** The index a relative index of [slice] stands for: a negative index
    counts from the end, and the result is clamped to [0 .. len]. *)
Definition relativeIndex (len i : Z) : Z :=
  if (i <? 0)%Z then Z.max (len + i) 0 else Z.min i len.

Definition sliced (l : list T) (start end_ : Z) : list T :=
  let len := Z.of_nat (length l) in
  let k := relativeIndex len start in
  let final := relativeIndex len end_ in
  take (Z.to_nat (final - k)) (drop (Z.to_nat k) l).

(** [arr.slice(start, end)] returns a new array. *)
Definition Array_slice (arr : ref) (start end_ : Z) : M T ref :=
  (l <- readArray arr ;;
   newArray (sliced l start end_))%js.

(** [arr.pop()] removes the last element and returns it; on an empty array
    it returns [undefined] and leaves the array empty. *)
Definition Array_pop (arr : ref) : M T (option T) :=
  (l <- readArray arr ;;
   writeArray arr (removelast l) ;;;
   ret (last l))%js.

(** [arr.map(f).reduce((a, b) => a + b, 0)], for [f] into the integers.
    The array [map] allocates holds numbers and is dropped at once; it is
    not entered in the store of the arrays of [T]. *)
Definition sumAmounts (l : list Z) : Z := fold_left Z.add l 0%Z.

Definition Array_map_reduce_sum (f : T -> Z) (arr : ref) : M T Z :=
  (l <- readArray arr ;;
   ret (sumAmounts (map f l)))%js.

(** [while (cond) { body }], with a bound on the number of times the
    condition is evaluated. *)
Fixpoint while (fuel : nat) (cond : M T bool) (body : M T unit) : M T unit :=
  match fuel with
  | O => fun _ => OutOfFuel
  | S fuel' =>
      (b <- cond ;;
       if b : bool then (body ;;; while fuel' cond body) else ret tt)%js
  end.

End ArrayMethods.

(** ** limitTips *)

(** [T extends Tip]: the only field of a tip [limitTips] reads is its
    [amount], an integer number of sats. *)
Class Tip (T : Type) : Type := amount : T -> Z.

Section TipLimiter.

Context {T : Type} `{Tip T}.

Variable MAX_TIPS_WITHDRAWABLE : Z.
Variable MAX_TIP_SATS : Z.

(** [(a, b) => b.amount - a.amount] *)
Definition largestFirst (a b : T) : Z := (amount b - amount a)%Z.

Definition limitTips (fuel : nat) (tips : ref) : M T ref :=
  (sortedTips <- Array_sort largestFirst tips ;;
   limitedTips <- Array_slice sortedTips 0 MAX_TIPS_WITHDRAWABLE ;;
   while fuel
     (total <- Array_map_reduce_sum amount limitedTips ;;
      ret (MAX_TIP_SATS <? total)%Z)
     (Array_pop limitedTips ;;; ret tt) ;;;
   ret limitedTips)%js.

(** A call of [limitTips] on an array holding [tips], in a store of its
    own: what the call returns and what the caller's array holds after. *)
Definition callLimitTips (fuel : nat) (tips : list T)
  : outcome T (list T * list T) :=
  (tipsRef <- newArray tips ;;
   limited <- limitTips fuel tipsRef ;;
   result <- readArray limited ;;
   after <- readArray tipsRef ;;
   ret (result, after))%js [].

End TipLimiter.

(** A tip record for the examples: an identifier and an amount. *)
Record tip : Type := { id : string; tipAmount : Z }.

#[export] Instance tip_Tip : Tip tip := tipAmount.

Definition tip200 : tip := {| id := "tip-d"; tipAmount := 200 |}.
Definition tip300 : tip := {| id := "tip-c"; tipAmount := 300 |}.
Definition tip400 : tip := {| id := "tip-b"; tipAmount := 400 |}.
Definition tip500 : tip := {| id := "tip-a"; tipAmount := 500 |}.
Definition tip2000 : tip := {| id := "tip-e"; tipAmount := 2000 |}.

(** The input of the specification's example. *)
Definition fourTips : list tip := [tip500; tip400; tip300; tip200].

(** *** What the call leaves in the store

    The contents of the arrays after a call, as functions of the contents
    of the argument; [limitTips_returns] below proves that they are what
    [limitTips] computes. *)

Section TipLimiterContents.

Context {T : Type} `{Tip T}.

Variable MAX_TIPS_WITHDRAWABLE : Z.
Variable MAX_TIP_SATS : Z.

(** The [while] loop of [limitTips], on the array [limitedTips]. *)
Definition trimLoop (fuel : nat) (limitedTips : ref) : M T unit :=
  while fuel
    (total <- Array_map_reduce_sum amount limitedTips ;;
     ret (MAX_TIP_SATS <? total)%Z)%js
    (Array_pop limitedTips ;;; ret tt)%js.

(** The array after at most [n] rounds of the [while] loop. *)
Fixpoint trim (n : nat) (l : list T) : list T :=
  match n with
  | O => l
  | S n' =>
      if (MAX_TIP_SATS <? sumAmounts (map amount l))%Z
      then trim n' (removelast l)
      else l
  end.

(** The contents of the returned array. *)
Definition limited (tips : list T) : list T :=
  let limitedTips :=
    sliced (sorted largestFirst tips) 0 MAX_TIPS_WITHDRAWABLE in
  trim (length limitedTips) limitedTips.

(** Non-increasing order of amount. *)
Definition largerFirst (a b : T) : Prop := (amount b <= amount a)%Z.
Definition nonIncreasing (l : list T) : Prop := Sorted largerFirst l.

(** The specification's claim that a call leaves its argument as it was. *)
Definition argumentUnchanged (tips : list T) : Prop :=
  forall fuel result after s,
    callLimitTips MAX_TIPS_WITHDRAWABLE MAX_TIP_SATS fuel tips
      = Returned (result, after) s ->
    after = tips.

End TipLimiterContents.

(** ** Strings, numbers and arrays of the other utilities

    The remaining functions of the module work on strings.  A JavaScript
    string is a sequence of UTF-16 code units; [length], [substring],
    [indexOf], [startsWith], [split] and [charCodeAt] all count in code
    units, and a string is modelled as the list of its code units. *)

Module Utils.

Abbreviation jsString := (list N) (only parsing).

(** A string literal of the source (all of them are ASCII). *)
Definition lit (s : string) : list N :=
  map Ascii.N_of_ascii (String.list_ascii_of_string s).

(** *** 32-bit integer operators *)

(** [ToInt32] of an integer: its value modulo [2 ^ 32], taken in
    [- 2 ^ 31 .. 2 ^ 31 - 1]. *)
Definition ToInt32 (z : Z) : Z := ((z + 2 ^ 31) mod 2 ^ 32 - 2 ^ 31)%Z.

(** [a << n] *)
Definition shiftLeft (a n : Z) : Z := ToInt32 (ToInt32 a * 2 ^ (n mod 32))%Z.

(** [a | b] *)
Definition bitwiseOr (a b : Z) : Z := Z.lor (ToInt32 a) (ToInt32 b).

(** [Number.prototype.toString()] of an integer (below [10 ^ 21] in
    absolute value, where JavaScript prints every digit). *)
Definition Number_toString (z : Z) : list N :=
  lit (NilZero.string_of_int (Z.to_int z)).

(** *** String methods *)

(** [s.startsWith(search)] *)
Fixpoint String_startsWith (s search : list N) {struct search} : bool :=
  match search, s with
  | [], _ => true
  | c :: search', d :: s' => (c =? d)%N && String_startsWith s' search'
  | _ :: _, [] => false
  end.

(** [s.indexOf(search)]: the first index at which [search] occurs in [s],
    and -1 when it does not occur. *)
Fixpoint indexOfFrom (s search : list N) (i : Z) : Z :=
  if String_startsWith s search then i
  else match s with
       | [] => (-1)%Z
       | _ :: s' => indexOfFrom s' search (i + 1)%Z
       end.

Definition String_indexOf (s search : list N) : Z := indexOfFrom s search 0.

(** [s.substring(start, end)]: both indices are clamped to [0 .. length],
    and swapped when [start] is the larger. *)
Definition clampIndex (len i : Z) : Z := Z.min (Z.max i 0) len.

Definition String_substring (s : list N) (start end_ : Z) : list N :=
  let len := Z.of_nat (length s) in
  let a := clampIndex len start in
  let b := clampIndex len end_ in
  take (Z.to_nat (Z.max a b - Z.min a b)) (drop (Z.to_nat (Z.min a b)) s).

(** [s.substring(start)] *)
Definition String_substringFrom (s : list N) (start : Z) : list N :=
  String_substring s start (Z.of_nat (length s)).

(** [s.split(sep)] for a separator of one code unit. *)
Fixpoint String_split (s : list N) (sep : N) : list (list N) :=
  match s with
  | [] => [[]]
  | c :: s' =>
      if (c =? sep)%N then [] :: String_split s' sep
      else match String_split s' sep with
           | w :: ws => (c :: w) :: ws
           | [] => [[c]]
           end
  end.

(** An interpolation [${x}] in a template literal: [undefined] is printed
    as the word. *)
Definition interpolate (x : option (list N)) : list N :=
  default (lit "undefined") x.

(** [x || y] for strings: the empty string and [undefined] are falsy. *)
Definition orElse (x : option (list N)) (y : list N) : list N :=
  match x with
  | Some (c :: s) => c :: s
  | Some [] | None => y
  end.

(** *** Array methods *)

(** [arr[i]] *)
Definition Array_at {A : Type} (arr : list A) (i : Z) : option A :=
  if (i <? 0)%Z then None else arr !! Z.to_nat i.

(** [arr.splice(start, 1)]: the element removed, if any, and the array
    left. *)
Definition Array_splice1 {A : Type} (arr : list A) (start : Z)
  : option A * list A :=
  let k := Z.to_nat (relativeIndex (Z.of_nat (length arr)) start) in
  (arr !! k, delete k arr).

(** [arr.join(sep)]: [undefined] elements are joined as empty strings. *)
Definition Array_join (arr : list (option (list N))) (sep : list N) : list N :=
  match arr with
  | [] => []
  | x :: arr' =>
      fold_left (fun acc y => acc ++ sep ++ default [] y) arr' (default [] x)
  end.

(** *** getHashCode, getFallbackAvatarId, getAvatarUrl, getUserAvatarUrl *)

(** [s.split("").reduce((a, b) => ((a << 5) - a + b.charCodeAt(0)) | 0, 0)] *)
Definition getHashCode (s : list N) : Z :=
  fold_left (fun a b => bitwiseOr (shiftLeft a 5 - a + Z.of_N b) 0) s 0%Z.

(** The fields of [User] and [PublicUser] the functions read. *)
Record User : Type := { id : list N; avatarURL : option (list N) }.

Definition getFallbackAvatarId (user : option User) : option (list N) :=
  match user with
  | None => None
  | Some u => Some (Number_toString (Z.rem (getHashCode (id u)) 10000))
  end.

(** [fallbackId = "1"]: the default applies when the argument is
    [undefined]. *)
Definition getAvatarUrl (avatarUrl fallbackId : option (list N)) : list N :=
  let fallbackId := default (lit "1") fallbackId in
  match avatarUrl with
  | Some (c :: u) => c :: u
  | Some [] | None =>
      lit "https://avatars.dicebear.com/api/miniavs/" ++ fallbackId
      ++ lit ".svg"
  end.

(** [user?.avatarURL ?? undefined] *)
Definition getUserAvatarUrl (user : option User) : list N :=
  getAvatarUrl (user ≫= avatarURL) (getFallbackAvatarId user).

(** *** nth *)

Definition nth (n : Z) : list N :=
  orElse (Array_at [lit "st"; lit "nd"; lit "rd"]
                   (Z.rem (Z.rem (n + 90) 100 - 10) 10 - 1))
         (lit "th").

(** *** truncate *)

Definition truncate (text : list N) (length_ : Z) (suffix : option (list N))
  : list N :=
  let suffix := default (lit "...") suffix in
  if (length_ <? Z.of_nat (length text))%Z
  then String_substring text 0 length_ ++ suffix
  else text.

(** *** getRedeemUrl *)

(** What [getAppUrl] reads: [window.location.origin] when there is a
    window, and [process.env.APP_URL], which may not be set. *)
Record Env : Type := {
  windowOrigin : option (list N);
  APP_URL : option (list N)
}.

Definition getAppUrl (env : Env) : option (list N) :=
  match windowOrigin env with
  | Some origin => Some origin
  | None => APP_URL env
  end.

Definition getRedeemUrl (env : Env) (excludeHttp : option bool) : list N :=
  let excludeHttp := default false excludeHttp in
  let redeemUrl := interpolate (getAppUrl env) ++ lit "/tip" in
  if excludeHttp
  then String_substringFrom redeemUrl
                            (String_indexOf redeemUrl (lit "//") + 2)
  else redeemUrl.

(** *** isValidNostrConnectUrl *)

Definition isValidNostrConnectUrl (url : list N) : bool :=
  (String_startsWith url (lit "nostrwalletconnect://")
   || String_startsWith url (lit "nostr+walletconnect://"))
  && (0 <? String_indexOf url (lit "&secret="))%Z.

(** *** generatePassphrase, getUpdatedPassphrase *)

Section Passphrase.

(** The word list of lib/bip0039. *)
Variable bip0039 : list (list N).

(** The numbers the successive calls of [Math.random()] return.  The
    product with the length is taken exactly; the statements about the
    passphrase use of it only that the index lies within the array. *)
Variable random : nat -> Q.

(** The [for] loop of [generatePassphrase], [n] rounds from round [i]. *)
Fixpoint passphraseLoop (n i : nat) (words : list (option (list N)))
    (availableWords : list (list N)) : list (option (list N)) :=
  match n with
  | O => words
  | S n' =>
      let randomIndex :=
        Qfloor (random i * inject_Z (Z.of_nat (length availableWords))) in
      let '(nextWord, availableWords') :=
        Array_splice1 availableWords randomIndex in
      passphraseLoop n' (S i) (words ++ [nextWord]) availableWords'
  end.

Definition generatePassphrase (length_ : Z) : list N :=
  Array_join (passphraseLoop (Z.to_nat length_) 0 [] bip0039) (lit " ").

(** The fields of [UpdateTipRequest] the function reads; the field
    [generatePassphrase] is [reqGeneratePassphrase] here, the name being
    taken by the function. *)
Record UpdateTipRequest : Type := {
  reqGeneratePassphrase : bool;
  passphraseLength : Z
}.

Definition getUpdatedPassphrase (existingPassphrase : option (list N))
    (updateTipRequest : UpdateTipRequest) : option (list N) :=
  if reqGeneratePassphrase updateTipRequest then
    match existingPassphrase with
    | Some p =>
        if (Z.of_nat (length (String_split p 32)) =?
            passphraseLength updateTipRequest)%Z
        then Some p
        else Some (generatePassphrase (passphraseLength updateTipRequest))
    | None => Some (generatePassphrase (passphraseLength updateTipRequest))
    end
  else None.

End Passphrase.

(** *** Devices of the statements about the utilities *)

(** The hash as a polynomial in 31, before any reduction to 32 bits:
    [c0 * 31 ^ (n - 1) + ... + c(n-1)]. *)
Definition polynomialHash (s : list N) : Z :=
  fold_left (fun a b => (31 * a + Z.of_N b)%Z) s 0%Z.

(** [search] occurs in [s]. *)
Definition occursIn (search s : list N) : Prop :=
  exists pre post : list N, s = pre ++ search ++ post.

(** The suffix English gives the ordinal of [n >= 0]. *)
Definition ordinalSuffix (n : Z) : list N :=
  if ((11 <=? n mod 100) && (n mod 100 <=? 13))%Z then lit "th"
  else if (n mod 10 =? 1)%Z then lit "st"
  else if (n mod 10 =? 2)%Z then lit "nd"
  else if (n mod 10 =? 3)%Z then lit "rd"
  else lit "th".

End Utils.

(** * Properties *)

(** ** The sort *)

Section SortFacts.

Context {T : Type}.
Variable comparefn : T -> T -> Z.

Lemma sortInsert_Permutation (x : T) (l : list T) :
  Permutation (sortInsert comparefn x l) (x :: l).
Proof.
  induction l as [|y l IH]; simpl; [reflexivity|].
  destruct (0 <? comparefn x y)%Z; [|reflexivity].
  rewrite IH. apply perm_swap.
Qed.

Lemma sorted_Permutation (l : list T) : Permutation (sorted comparefn l) l.
Proof.
  induction l as [|x l IH]; simpl; [reflexivity|].
  rewrite sortInsert_Permutation. by constructor.
Qed.

Lemma length_sorted (l : list T) : length (sorted comparefn l) = length l.
Proof. apply Permutation_length, sorted_Permutation. Qed.

End SortFacts.

Section LargestFirstFacts.

Context {T : Type} `{Tip T}.

Lemma sortInsert_HdRel (a x : T) (l : list T) :
  largerFirst a x -> HdRel largerFirst a l ->
  HdRel largerFirst a (sortInsert largestFirst x l).
Proof.
  intros Hax Hal. destruct l as [|y l]; simpl; [by constructor|].
  destruct (0 <? largestFirst x y)%Z; constructor; [|done].
  by inversion Hal.
Qed.

Lemma sortInsert_nonIncreasing (x : T) (l : list T) :
  nonIncreasing l -> nonIncreasing (sortInsert largestFirst x l).
Proof.
  unfold nonIncreasing. induction 1 as [|y l Hl IH Hy]; simpl.
  - repeat constructor.
  - destruct (0 <? largestFirst x y)%Z eqn:E.
    + constructor; [done|]. apply sortInsert_HdRel; [|done].
      unfold largerFirst, largestFirst in *. lia.
    + constructor; [by constructor|]. constructor.
      unfold largerFirst, largestFirst in *. lia.
Qed.

Lemma sorted_nonIncreasing (l : list T) :
  nonIncreasing (sorted largestFirst l).
Proof.
  induction l as [|x l IH]; simpl; [constructor|].
  by apply sortInsert_nonIncreasing.
Qed.

(** Sorting an array that is in non-increasing order changes nothing. *)
Lemma sorted_id (l : list T) :
  nonIncreasing l -> sorted largestFirst l = l.
Proof.
  unfold nonIncreasing. induction 1 as [|x l Hl IH Hx]; simpl; [done|].
  rewrite IH. destruct Hx as [|y l Hxy]; simpl; [done|].
  unfold largerFirst, largestFirst in *.
  destruct (0 <? amount y - amount x)%Z eqn:E; [lia|done].
Qed.

(** The sort is stable: the tips of any one amount keep their order. *)
Lemma sortInsert_stable (v : Z) (x : T) (l : list T) :
  filter (fun t => amount t = v) (sortInsert largestFirst x l)
  = filter (fun t => amount t = v) (x :: l).
Proof.
  induction l as [|y l IH]; simpl; [done|].
  destruct (0 <? largestFirst x y)%Z eqn:E; [|done].
  unfold largestFirst in E.
  rewrite filter_cons, IH, !filter_cons.
  repeat case_decide; try done; lia.
Qed.

Lemma sorted_stable (v : Z) (l : list T) :
  filter (fun t => amount t = v) (sorted largestFirst l)
  = filter (fun t => amount t = v) l.
Proof.
  induction l as [|x l IH]; simpl; [done|].
  rewrite sortInsert_stable, !filter_cons, IH. done.
Qed.

Lemma nonIncreasing_head (x : T) (l : list T) :
  nonIncreasing (x :: l) -> Forall (fun y => (amount y <= amount x)%Z) l.
Proof.
  intros Hs. apply Sorted_StronglySorted in Hs.
  - by inversion Hs.
  - intros a b c Hab Hbc. unfold largerFirst in *. lia.
Qed.

(** The three properties determine the result: whatever algorithm the
    engine sorts with, a stable sort by [largestFirst] leaves the array
    [sorted largestFirst] leaves. *)
Lemma stable_sort_unique (l1 l2 : list T) :
  Permutation l1 l2 -> nonIncreasing l1 -> nonIncreasing l2 ->
  (forall v : Z, filter (fun t => amount t = v) l1
                 = filter (fun t => amount t = v) l2) ->
  l1 = l2.
Proof.
  revert l2. induction l1 as [|x l1 IH]; intros l2 Hperm Hs1 Hs2 Hstable.
  - by apply Permutation_nil in Hperm.
  - destruct l2 as [|y l2].
    { symmetry in Hperm. by apply Permutation_nil in Hperm. }
    assert (amount x = amount y) as Hxy.
    { pose proof (nonIncreasing_head _ _ Hs1) as H1.
      pose proof (nonIncreasing_head _ _ Hs2) as H2.
      assert (x ∈ y :: l2) as Hx by (rewrite <- Hperm; left).
      assert (y ∈ x :: l1) as Hy by (rewrite Hperm; left).
      rewrite Forall_forall in H1, H2.
      apply elem_of_cons in Hx as [->|Hx]; [done|].
      apply elem_of_cons in Hy as [->|Hy]; [done|].
      specialize (H1 _ Hy). specialize (H2 _ Hx). lia. }
    pose proof (Hstable (amount x)) as Hhead.
    rewrite !filter_cons in Hhead.
    rewrite decide_True in Hhead by done.
    rewrite (decide_True (P := amount y = amount x)) in Hhead by done.
    injection Hhead as -> Htail.
    f_equal. apply IH.
    + by eapply Permutation_cons_inv.
    + by inversion Hs1.
    + by inversion Hs2.
    + intros v. specialize (Hstable v). rewrite !filter_cons in Hstable.
      case_decide; [by injection Hstable|done].
Qed.

Lemma sorted_unique (l after : list T) :
  Permutation after l -> nonIncreasing after ->
  (forall v : Z, filter (fun t => amount t = v) after
                 = filter (fun t => amount t = v) l) ->
  after = sorted largestFirst l.
Proof.
  intros Hperm Hs Hstable. apply stable_sort_unique; [|done| |].
  - by rewrite sorted_Permutation.
  - apply sorted_nonIncreasing.
  - intros v. by rewrite sorted_stable.
Qed.

Lemma nonIncreasing_app_l (l1 l2 : list T) :
  nonIncreasing (l1 ++ l2) -> nonIncreasing l1.
Proof.
  unfold nonIncreasing. induction l1 as [|x l1 IH]; simpl; [constructor|].
  intros Hs. inversion Hs as [|? ? Hl Hx]; subst.
  constructor; [by apply IH|].
  destruct l1; simpl in *; [constructor|].
  inversion Hx; by constructor.
Qed.

Lemma nonIncreasing_prefix (l1 l2 : list T) :
  l1 `prefix_of` l2 -> nonIncreasing l2 -> nonIncreasing l1.
Proof. intros [k ->]. apply nonIncreasing_app_l. Qed.

End LargestFirstFacts.

(** ** The slice and the loop *)

Section SliceFacts.

Context {T : Type}.
Implicit Types l : list T.

Lemma sliced_from_0 l (end_ : Z) :
  sliced l 0 end_
  = take (Z.to_nat (relativeIndex (Z.of_nat (length l)) end_)) l.
Proof.
  unfold sliced. replace (relativeIndex (Z.of_nat (length l)) 0) with 0%Z.
  - by rewrite Z.sub_0_r.
  - unfold relativeIndex. simpl. lia.
Qed.

Lemma sliced_prefix l (end_ : Z) : sliced l 0 end_ `prefix_of` l.
Proof. rewrite sliced_from_0. apply prefix_take. Qed.

Lemma length_sliced l (end_ : Z) :
  (0 <= end_)%Z -> (Z.of_nat (length (sliced l 0 end_)) <= end_)%Z.
Proof.
  intros Hend. rewrite sliced_from_0, length_take.
  unfold relativeIndex. destruct (end_ <? 0)%Z eqn:E; lia.
Qed.

Lemma sliced_all l (end_ : Z) :
  (Z.of_nat (length l) <= end_)%Z -> sliced l 0 end_ = l.
Proof.
  intros Hlen. rewrite sliced_from_0. apply take_ge.
  unfold relativeIndex. destruct (end_ <? 0)%Z eqn:E; lia.
Qed.

Lemma removelast_prefix l : removelast l `prefix_of` l.
Proof. rewrite removelast_firstn_len. apply prefix_take. Qed.

Lemma length_removelast l : length (removelast l) = pred (length l).
Proof. rewrite removelast_firstn_len, length_take. lia. Qed.

End SliceFacts.

Lemma sumAmounts_shift (l : list Z) (a : Z) :
  fold_left Z.add l a = (a + sumAmounts l)%Z.
Proof.
  unfold sumAmounts. revert a.
  induction l as [|x l IH]; intros a; simpl; [lia|].
  rewrite (IH (a + x)%Z), (IH (0 + x)%Z). lia.
Qed.

Lemma sumAmounts_cons (x : Z) (l : list Z) :
  sumAmounts (x :: l) = (x + sumAmounts l)%Z.
Proof. unfold sumAmounts at 1. simpl. apply sumAmounts_shift. Qed.

Lemma sumAmounts_pos (l : list Z) (b : Z) :
  (0 <= b)%Z -> Forall (fun a => (b < a)%Z) l -> l <> [] ->
  (b < sumAmounts l)%Z.
Proof.
  intros Hb. induction 1 as [|x l Hx Hl IH]; [done|]. intros _.
  rewrite sumAmounts_cons. destruct l as [|y l].
  - unfold sumAmounts. simpl. lia.
  - specialize (IH ltac:(done)). lia.
Qed.

Section TrimFacts.

Context {T : Type} `{Tip T}.
Variable MAX_TIP_SATS : Z.
Implicit Types l : list T.

Lemma trim_prefix (n : nat) l : trim MAX_TIP_SATS n l `prefix_of` l.
Proof.
  revert l. induction n as [|n IH]; intros l; simpl; [done|].
  destruct (MAX_TIP_SATS <? _)%Z; [|done].
  etrans; [apply IH|apply removelast_prefix].
Qed.

(** The loop stops at the first total that is within the limit. *)
Lemma trim_within l :
  (sumAmounts (map amount l) <= MAX_TIP_SATS)%Z ->
  forall n, trim MAX_TIP_SATS n l = l.
Proof.
  intros Hsum [|n]; simpl; [done|].
  destruct (MAX_TIP_SATS <? _)%Z eqn:E; [lia|done].
Qed.

Lemma trim_sum (n : nat) l :
  (0 <= MAX_TIP_SATS)%Z -> length l <= n ->
  (sumAmounts (map amount (trim MAX_TIP_SATS n l)) <= MAX_TIP_SATS)%Z.
Proof.
  intros Hmax. revert l. induction n as [|n IH]; intros l Hlen; simpl.
  - destruct l; simpl in *; [done|lia].
  - destruct (MAX_TIP_SATS <? _)%Z eqn:E; [|lia].
    apply IH. rewrite length_removelast. lia.
Qed.

(** When no tip fits the limit on its own, the loop empties the array. *)
Lemma trim_all_exceed (n : nat) l :
  (0 <= MAX_TIP_SATS)%Z -> length l <= n ->
  Forall (fun t => (MAX_TIP_SATS < amount t)%Z) l ->
  trim MAX_TIP_SATS n l = [].
Proof.
  intros Hmax. revert l. induction n as [|n IH]; intros l Hlen Hall; simpl.
  - destruct l; simpl in *; [done|lia].
  - destruct (decide (l = [])) as [->|Hne].
    { apply (trim_within [] ltac:(unfold sumAmounts; simpl; lia) (S n)). }
    assert (MAX_TIP_SATS < sumAmounts (map amount l))%Z as Hsum.
    { apply sumAmounts_pos; [done|by apply Forall_fmap|].
      intros Hnil. apply Hne. by destruct l. }
    destruct (MAX_TIP_SATS <? _)%Z eqn:E; [|lia].
    apply IH; [rewrite length_removelast; lia|].
    destruct (removelast_prefix l) as [k Hk].
    rewrite Hk in Hall. by apply Forall_app in Hall as [? _].
Qed.

End TrimFacts.

(** ** The call *)

Section StoreFacts.

Context {T : Type}.
Implicit Types (s : store T) (l : list T) (r : ref).

Lemma readArray_Some s r l :
  s !! r = Some l -> readArray r s = Returned l s.
Proof. intros Hr. unfold readArray. by rewrite Hr. Qed.

Lemma writeArray_Some s r l l' :
  s !! r = Some l -> writeArray r l' s = Returned tt (<[r := l']> s).
Proof. intros Hr. unfold writeArray. by rewrite Hr. Qed.

Lemma lookup_written s r l l' :
  s !! r = Some l -> <[r := l']> s !! r = Some l'.
Proof. intros Hr. apply list_lookup_insert_eq. by eapply lookup_lt_Some. Qed.

Lemma lookup_new s l : (s ++ [l]) !! length s = Some l.
Proof. by rewrite lookup_app_r, Nat.sub_diag. Qed.

Lemma write_new s l l' : <[length s := l']> (s ++ [l]) = s ++ [l'].
Proof.
  rewrite insert_app_r_alt, Nat.sub_diag by lia. done.
Qed.

End StoreFacts.

Section LimitTipsRun.

Context {T : Type} `{Tip T}.

Variable MAX_TIPS_WITHDRAWABLE : Z.
Variable MAX_TIP_SATS : Z.

Implicit Types (s : store T) (l tips : list T) (r : ref).

Abbreviation loop := (trimLoop MAX_TIP_SATS).

Lemma loop_step (fuel : nat) r l s :
  s !! r = Some l ->
  loop (S fuel) r s
  = if (MAX_TIP_SATS <? sumAmounts (map amount l))%Z
    then loop fuel r (<[r := removelast l]> s)
    else Returned tt s.
Proof.
  intros Hr. unfold trimLoop. simpl.
  unfold bind, Array_map_reduce_sum, Array_pop, bind, ret.
  rewrite (readArray_Some _ _ _ Hr).
  destruct (MAX_TIP_SATS <? _)%Z; [|done].
  by rewrite (readArray_Some _ _ _ Hr), (writeArray_Some _ _ _ _ Hr).
Qed.

(** With the limit non-negative the loop ends within [length l] rounds,
    and leaves [trim (length l) l] in the array. *)
Lemma loop_returns (fuel : nat) r l s :
  s !! r = Some l -> (0 <= MAX_TIP_SATS)%Z -> length l < fuel ->
  loop fuel r s
  = Returned tt (<[r := trim MAX_TIP_SATS (length l) l]> s).
Proof.
  intros Hr Hmax. revert l s Hr.
  induction fuel as [|fuel IH]; intros l s Hr Hlen; [lia|].
  rewrite (loop_step _ _ _ _ Hr).
  destruct (MAX_TIP_SATS <? _)%Z eqn:E.
  - destruct l as [|x l'] eqn:El.
    { unfold sumAmounts in E. simpl in E. lia. }
    assert (0 < length l) as Hpos by (rewrite El; simpl; lia).
    rewrite <- El in *.
    rewrite (IH (removelast l)).
    + rewrite list_insert_insert_eq, length_removelast.
      replace (length l) with (S (pred (length l))) at 2 by lia.
      simpl. by rewrite E.
    + eapply lookup_written, Hr.
    + rewrite length_removelast. lia.
  - rewrite (trim_within MAX_TIP_SATS l) by lia.
    by rewrite list_insert_id.
Qed.

(** The loop never throws: it returns or is still running. *)
Lemma loop_not_Thrown (fuel : nat) r l s (e : error) :
  s !! r = Some l -> loop fuel r s <> Thrown e.
Proof.
  revert l s. induction fuel as [|fuel IH]; intros l s Hr; [done|].
  rewrite (loop_step _ _ _ _ Hr).
  destruct (MAX_TIP_SATS <? _)%Z; [|done].
  eapply IH, lookup_written, Hr.
Qed.

(** With a negative limit and no negative amount the loop never ends. *)
Lemma loop_diverges (fuel : nat) r l s :
  s !! r = Some l -> (MAX_TIP_SATS < 0)%Z ->
  Forall (fun t => (0 <= amount t)%Z) l ->
  loop fuel r s = OutOfFuel.
Proof.
  intros Hr Hmax. revert l s Hr.
  induction fuel as [|fuel IH]; intros l s Hr Hall; [done|].
  rewrite (loop_step _ _ _ _ Hr).
  assert (0 <= sumAmounts (map amount l))%Z as Hsum.
  { clear Hr. induction Hall as [|x l Hx Hl IHl]; [done|].
    simpl. rewrite sumAmounts_cons. lia. }
  destruct (MAX_TIP_SATS <? _)%Z eqn:E; [|lia].
  eapply IH; [eapply lookup_written, Hr|].
  destruct (removelast_prefix l) as [k Hk].
  rewrite Hk in Hall. by apply Forall_app in Hall as [? _].
Qed.

Lemma limitTips_unfold (fuel : nat) r tips s :
  s !! r = Some tips ->
  limitTips MAX_TIPS_WITHDRAWABLE MAX_TIP_SATS fuel r s
  = match loop fuel (length s)
            (<[r := sorted largestFirst tips]> s
             ++ [sliced (sorted largestFirst tips) 0 MAX_TIPS_WITHDRAWABLE])
    with
    | Returned _ s' => Returned (length s) s'
    | Thrown e => Thrown e
    | OutOfFuel => OutOfFuel
    end.
Proof.
  intros Hr. unfold limitTips, Array_sort, Array_slice, bind at 1 2 3 4.
  rewrite (readArray_Some _ _ _ Hr), (writeArray_Some _ _ _ _ Hr).
  unfold ret at 1, bind at 1.
  rewrite (readArray_Some _ _ _ (lookup_written _ _ _ _ Hr)).
  unfold newArray, bind at 1. rewrite length_insert.
  fold (trimLoop MAX_TIP_SATS fuel (length s)).
  by destruct (loop _ _ _).
Qed.

(** The call returns once the fuel exceeds the length of the argument:
    the argument then holds its tips sorted, and the returned reference
    is a new array holding [limited tips]. *)
Lemma limitTips_returns (fuel : nat) r tips s :
  s !! r = Some tips -> (0 <= MAX_TIP_SATS)%Z -> length tips < fuel ->
  limitTips MAX_TIPS_WITHDRAWABLE MAX_TIP_SATS fuel r s
  = Returned (length s)
             (<[r := sorted largestFirst tips]> s
              ++ [limited MAX_TIPS_WITHDRAWABLE MAX_TIP_SATS tips]).
Proof.
  intros Hr Hmax Hfuel. rewrite (limitTips_unfold _ _ _ _ Hr).
  set (s1 := <[r := sorted largestFirst tips]> s).
  set (l0 := sliced (sorted largestFirst tips) 0 MAX_TIPS_WITHDRAWABLE).
  assert (length s = length s1) as Hs1 by (unfold s1; by rewrite length_insert).
  rewrite Hs1 at 1.
  rewrite (loop_returns fuel (length s1) l0); [| apply lookup_new | done |].
  - by rewrite write_new.
  - pose proof (prefix_length _ _ (sliced_prefix (sorted largestFirst tips)
                                     MAX_TIPS_WITHDRAWABLE)) as Hp.
    rewrite length_sorted in Hp. unfold l0. lia.
Qed.

Lemma limitTips_not_Thrown (fuel : nat) r tips s (e : error) :
  s !! r = Some tips ->
  limitTips MAX_TIPS_WITHDRAWABLE MAX_TIP_SATS fuel r s <> Thrown e.
Proof.
  intros Hr. rewrite (limitTips_unfold _ _ _ _ Hr).
  set (s1 := <[r := sorted largestFirst tips]> s).
  assert (length s = length s1) as Hs1 by (unfold s1; by rewrite length_insert).
  set (l0 := sliced (sorted largestFirst tips) 0 MAX_TIPS_WITHDRAWABLE).
  rewrite Hs1 at 1.
  pose proof (loop_not_Thrown fuel (length s1) l0 (s1 ++ [l0]) e
                              (lookup_new s1 l0)) as Hl.
  destruct (loop _ _ _) eqn:E; congruence.
Qed.

(** With a negative limit and no negative amount the call never returns:
    the hypothesis [0 <= MAX_TIP_SATS] of the results below is needed. *)
Lemma limitTips_diverges (fuel : nat) r tips s :
  s !! r = Some tips -> (MAX_TIP_SATS < 0)%Z ->
  Forall (fun t => (0 <= amount t)%Z) tips ->
  limitTips MAX_TIPS_WITHDRAWABLE MAX_TIP_SATS fuel r s = OutOfFuel.
Proof.
  intros Hr Hmax Hall. rewrite (limitTips_unfold _ _ _ _ Hr).
  set (s1 := <[r := sorted largestFirst tips]> s).
  assert (length s = length s1) as Hs1 by (unfold s1; by rewrite length_insert).
  set (l0 := sliced (sorted largestFirst tips) 0 MAX_TIPS_WITHDRAWABLE).
  rewrite Hs1 at 1.
  rewrite (loop_diverges fuel (length s1) l0); [done|apply lookup_new|done|].
  destruct (sliced_prefix (sorted largestFirst tips) MAX_TIPS_WITHDRAWABLE)
    as [k Hk].
  rewrite <- (sorted_Permutation largestFirst tips), Hk in Hall.
  by apply Forall_app in Hall as [? _].
Qed.

Lemma callLimitTips_returns (fuel : nat) tips :
  (0 <= MAX_TIP_SATS)%Z -> length tips < fuel ->
  callLimitTips MAX_TIPS_WITHDRAWABLE MAX_TIP_SATS fuel tips
  = Returned (limited MAX_TIPS_WITHDRAWABLE MAX_TIP_SATS tips,
              sorted largestFirst tips)
             [sorted largestFirst tips;
              limited MAX_TIPS_WITHDRAWABLE MAX_TIP_SATS tips].
Proof.
  intros Hmax Hfuel. unfold callLimitTips, bind at 1, newArray. simpl.
  unfold bind at 1.
  rewrite (limitTips_returns fuel 0 tips [tips]) by done.
  done.
Qed.

End LimitTipsRun.

(** ** The returned tips *)

Section LimitedFacts.

Context {T : Type} `{Tip T}.

Variable MAX_TIPS_WITHDRAWABLE : Z.
Variable MAX_TIP_SATS : Z.

Implicit Types tips : list T.

Abbreviation limited := (limited MAX_TIPS_WITHDRAWABLE MAX_TIP_SATS).

Lemma limited_prefix tips :
  limited tips `prefix_of` sorted largestFirst tips.
Proof.
  unfold limited. etrans; [apply trim_prefix|apply sliced_prefix].
Qed.

Lemma limited_nonIncreasing tips : nonIncreasing (limited tips).
Proof.
  eapply nonIncreasing_prefix;
    [apply limited_prefix|apply sorted_nonIncreasing].
Qed.

Lemma limited_submseteq tips : limited tips ⊆+ tips.
Proof.
  rewrite <- (sorted_Permutation largestFirst tips) at 2.
  destruct (limited_prefix tips) as [k ->].
  by apply submseteq_inserts_r.
Qed.

Lemma limited_length_le tips : length (limited tips) <= length tips.
Proof.
  rewrite <- (length_sorted largestFirst tips).
  apply prefix_length, limited_prefix.
Qed.

Lemma limited_length tips :
  (0 <= MAX_TIPS_WITHDRAWABLE)%Z ->
  (Z.of_nat (length (limited tips)) <= MAX_TIPS_WITHDRAWABLE)%Z.
Proof.
  intros Hn. unfold limited.
  pose proof (prefix_length _ _
    (trim_prefix MAX_TIP_SATS
       (length (sliced (sorted largestFirst tips) 0 MAX_TIPS_WITHDRAWABLE))
       (sliced (sorted largestFirst tips) 0 MAX_TIPS_WITHDRAWABLE))) as Hp.
  pose proof (length_sliced (sorted largestFirst tips)
                            MAX_TIPS_WITHDRAWABLE Hn).
  lia.
Qed.

Lemma limited_sum tips :
  (0 <= MAX_TIP_SATS)%Z ->
  (sumAmounts (map amount (limited tips)) <= MAX_TIP_SATS)%Z.
Proof. intros Hmax. unfold limited. by apply trim_sum. Qed.

Lemma limited_nil : limited [] = [].
Proof. apply prefix_nil_inv, (limited_prefix []). Qed.

Lemma limited_all_exceed tips :
  (0 <= MAX_TIP_SATS)%Z ->
  Forall (fun t => (MAX_TIP_SATS < amount t)%Z) tips ->
  limited tips = [].
Proof.
  intros Hmax Hall. unfold limited. apply trim_all_exceed; [done..|].
  destruct (sliced_prefix (sorted largestFirst tips) MAX_TIPS_WITHDRAWABLE)
    as [k Hk].
  rewrite <- (sorted_Permutation largestFirst tips), Hk in Hall.
  by apply Forall_app in Hall as [? _].
Qed.

(** Limiting tips that are already limited changes nothing. *)
Lemma limited_limited tips :
  (0 <= MAX_TIPS_WITHDRAWABLE)%Z -> (0 <= MAX_TIP_SATS)%Z ->
  limited (limited tips) = limited tips.
Proof.
  intros Hn Hmax. unfold limited at 1.
  rewrite (sorted_id _ (limited_nonIncreasing tips)).
  rewrite sliced_all by by apply limited_length.
  apply trim_within. by apply limited_sum.
Qed.

End LimitedFacts.

Section LimitTipsStore.

Context {T : Type} `{Tip T}.

Variable MAX_TIPS_WITHDRAWABLE : Z.
Variable MAX_TIP_SATS : Z.

(** The store after a call: the argument sorted, a new array returned,
    every other array as it was. *)
Lemma limitTips_store (fuel : nat) (r : ref) (tips : list T) (s : store T) :
  s !! r = Some tips -> (0 <= MAX_TIP_SATS)%Z -> length tips < fuel ->
  exists s',
    limitTips MAX_TIPS_WITHDRAWABLE MAX_TIP_SATS fuel r s
      = Returned (length s) s'
    /\ s' !! length s
       = Some (limited MAX_TIPS_WITHDRAWABLE MAX_TIP_SATS tips)
    /\ s' !! r = Some (sorted largestFirst tips)
    /\ forall r0, r0 <> r -> r0 < length s -> s' !! r0 = s !! r0.
Proof.
  intros Hr Hmax Hfuel. eexists. split; [by apply limitTips_returns|].
  pose proof (lookup_lt_Some _ _ _ Hr) as Hlt.
  split; [|split].
  - rewrite <- (length_insert s r (sorted largestFirst tips)) at 1.
    apply lookup_new.
  - rewrite lookup_app_l by (rewrite length_insert; lia).
    by eapply lookup_written.
  - intros r0 Hne Hr0.
    rewrite lookup_app_l by (rewrite length_insert; lia).
    by apply list_lookup_insert_ne.
Qed.

End LimitTipsStore.

(** ** TipLimiter: the claims *)

(** C2, as the specification states it, fails: after a call on the tips of
    200 and 500 sats, in that order, the caller's array holds the tip of 500
    sats first. *)
Lemma limitTips_reorders_argument :
  ~ argumentUnchanged 3 1000 [tip200; tip500].
Proof.
  intros Hclaim.
  specialize (Hclaim 3 [tip500; tip200] [tip500; tip200]
                     [[tip500; tip200]; [tip500; tip200]] eq_refl).
  discriminate Hclaim.
Qed.

(** C2, amended: [limitTips] sorts its argument in place.  After the call
    the caller's array holds the tips it held before, none added, dropped or
    changed, in non-increasing order of amount, the tips of any one amount in
    the order they were in; it is as it was exactly when it already was in
    non-increasing order.  The returned array is a new one, and no other
    array of the store is touched: the truncation never reaches the
    caller's array. *)
Theorem limitTips_sorts_argument {T : Type} `{Tip T}
    (MAX_TIPS_WITHDRAWABLE MAX_TIP_SATS : Z)
    (fuel : nat) (r : ref) (tips : list T) (s : store T) :
  s !! r = Some tips -> (0 <= MAX_TIP_SATS)%Z -> length tips < fuel ->
  exists (limitedTips : ref) (s' : store T) (after : list T),
    limitTips MAX_TIPS_WITHDRAWABLE MAX_TIP_SATS fuel r s
      = Returned limitedTips s'
    /\ s' !! r = Some after
    /\ after = sorted largestFirst tips
    /\ Permutation after tips
    /\ nonIncreasing after
    /\ (forall v : Z, filter (fun t => amount t = v) after
                      = filter (fun t => amount t = v) tips)
    /\ (after = tips <-> nonIncreasing tips)
    /\ limitedTips <> r
    /\ (forall r0, r0 <> r -> r0 < length s -> s' !! r0 = s !! r0).
Proof.
  intros Hr Hmax Hfuel.
  destruct (limitTips_store MAX_TIPS_WITHDRAWABLE MAX_TIP_SATS
                            fuel r tips s Hr Hmax Hfuel)
    as (s' & Hrun & _ & Hafter & Hframe).
  exists (length s), s', (sorted largestFirst tips).
  split_and!; try done.
  - apply sorted_Permutation.
  - apply sorted_nonIncreasing.
  - intros v. apply sorted_stable.
  - split; [intros <-; apply sorted_nonIncreasing | apply sorted_id].
  - apply lookup_lt_Some in Hr. lia.
Qed.

Lemma limitTips_sorts_argument_witness :
  exists (limitedTips : ref) (s' : store tip) (after : list tip),
    limitTips 3 1000 3 0 [[tip200; tip500]] = Returned limitedTips s'
    /\ s' !! 0 = Some after
    /\ after = sorted largestFirst [tip200; tip500]
    /\ Permutation after [tip200; tip500]
    /\ nonIncreasing after
    /\ (forall v : Z, filter (fun t => amount t = v) after
                      = filter (fun t => amount t = v) [tip200; tip500])
    /\ (after = [tip200; tip500] <-> nonIncreasing [tip200; tip500])
    /\ limitedTips <> 0
    /\ (forall r0, r0 <> 0 -> r0 < length [[tip200; tip500]] ->
        s' !! r0 = [[tip200; tip500]] !! r0).
Proof.
  apply (limitTips_sorts_argument 3 1000 3 0 [tip200; tip500]
                                  [[tip200; tip500]]);
    [reflexivity | lia | simpl; lia].
Defined.



(** C4: [limitTips] is idempotent: called on the list a first call
    returned, it returns a list of the same tips in the same order, and
    leaves the list it was given as it was. *)
Theorem limitTips_idempotent {T : Type} `{Tip T}
    (MAX_TIPS_WITHDRAWABLE MAX_TIP_SATS : Z)
    (fuel : nat) (r : ref) (tips : list T) (s : store T) :
  s !! r = Some tips ->
  (0 <= MAX_TIPS_WITHDRAWABLE)%Z -> (0 <= MAX_TIP_SATS)%Z ->
  length tips < fuel ->
  exists (once twice : ref) (s1 s2 : store T) (result : list T),
    limitTips MAX_TIPS_WITHDRAWABLE MAX_TIP_SATS fuel r s = Returned once s1
    /\ s1 !! once = Some result
    /\ limitTips MAX_TIPS_WITHDRAWABLE MAX_TIP_SATS fuel once s1
       = Returned twice s2
    /\ s2 !! twice = Some result
    /\ s2 !! once = Some result.
Proof.
  intros Hr Hn Hmax Hfuel.
  destruct (limitTips_store MAX_TIPS_WITHDRAWABLE MAX_TIP_SATS
                            fuel r tips s Hr Hmax Hfuel)
    as (s1 & Hrun1 & Hresult1 & _).
  pose proof (limited_length_le MAX_TIPS_WITHDRAWABLE MAX_TIP_SATS tips)
    as Hlen.
  destruct (limitTips_store MAX_TIPS_WITHDRAWABLE MAX_TIP_SATS
                            fuel (length s) _ s1 Hresult1 Hmax
                            ltac:(lia))
    as (s2 & Hrun2 & Hresult2 & Hafter2 & _).
  exists (length s), (length s1), s1, s2,
         (limited MAX_TIPS_WITHDRAWABLE MAX_TIP_SATS tips).
  split_and!; try done.
  - by rewrite Hresult2, limited_limited.
  - rewrite Hafter2. f_equal. apply sorted_id, limited_nonIncreasing.
Qed.

Lemma limitTips_idempotent_witness :
  exists (once twice : ref) (s1 s2 : store tip) (result : list tip),
    limitTips 3 1000 5 0 [fourTips] = Returned once s1
    /\ s1 !! once = Some result
    /\ limitTips 3 1000 5 once s1 = Returned twice s2
    /\ s2 !! twice = Some result
    /\ s2 !! once = Some result.
Proof.
  apply (limitTips_idempotent 3 1000 5 0 fourTips [fourTips]);
    [reflexivity | lia | lia | simpl; lia].
Defined.

(** C6: with [MAX_TIPS_WITHDRAWABLE = 3] and [MAX_TIP_SATS = 1000], the
    call on the tips of 500, 400, 300 and 200 sats returns the tips of 500
    and 400 sats: the three largest sum to 1200, and without the tip of 300
    sats the total is 900. *)
Theorem limitTips_four_tips (fuel : nat) :
  4 < fuel ->
  exists (after : list tip) (s : store tip),
    callLimitTips 3 1000 fuel fourTips = Returned ([tip500; tip400], after) s
    /\ sliced (sorted largestFirst fourTips) 0 3 = [tip500; tip400; tip300]
    /\ sumAmounts (map amount [tip500; tip400; tip300]) = 1200%Z
    /\ sumAmounts (map amount [tip500; tip400]) = 900%Z.
Proof.
  intros Hfuel. do 2 eexists. split; [|by vm_compute].
  rewrite callLimitTips_returns by (simpl; lia). reflexivity.
Qed.

Lemma limitTips_four_tips_witness :
  exists (after : list tip) (s : store tip),
    callLimitTips 3 1000 5 fourTips = Returned ([tip500; tip400], after) s
    /\ sliced (sorted largestFirst fourTips) 0 3 = [tip500; tip400; tip300]
    /\ sumAmounts (map amount [tip500; tip400; tip300]) = 1200%Z
    /\ sumAmounts (map amount [tip500; tip400]) = 900%Z.
Proof. apply (limitTips_four_tips 5). lia. Defined.

(** C9: [limitTips] raises no error on any list of tips: it returns (the
    limit [MAX_TIP_SATS] being non-negative), the empty list on the empty
    list, and the empty list when every tip on its own exceeds
    [MAX_TIP_SATS]; and however many rounds of the loop it is given, it does
    not throw. *)
Theorem limitTips_never_throws {T : Type} `{Tip T}
    (MAX_TIPS_WITHDRAWABLE MAX_TIP_SATS : Z)
    (fuel : nat) (r : ref) (tips : list T) (s : store T) :
  s !! r = Some tips -> (0 <= MAX_TIP_SATS)%Z -> length tips < fuel ->
  exists (limitedTips : ref) (s' : store T) (result : list T),
    limitTips MAX_TIPS_WITHDRAWABLE MAX_TIP_SATS fuel r s
      = Returned limitedTips s'
    /\ s' !! limitedTips = Some result
    /\ (tips = [] -> result = [])
    /\ (Forall (fun t => (MAX_TIP_SATS < amount t)%Z) tips -> result = [])
    /\ (forall (fuel' : nat) (e : error),
          limitTips MAX_TIPS_WITHDRAWABLE MAX_TIP_SATS fuel' r s <> Thrown e).
Proof.
  intros Hr Hmax Hfuel.
  destruct (limitTips_store MAX_TIPS_WITHDRAWABLE MAX_TIP_SATS
                            fuel r tips s Hr Hmax Hfuel)
    as (s' & Hrun & Hresult & _).
  exists (length s), s', (limited MAX_TIPS_WITHDRAWABLE MAX_TIP_SATS tips).
  split_and!; try done.
  - intros ->. apply limited_nil.
  - by apply limited_all_exceed.
  - intros fuel' e. by eapply limitTips_not_Thrown.
Qed.

Lemma limitTips_never_throws_witness :
  exists (limitedTips : ref) (s' : store tip) (result : list tip),
    limitTips 3 1000 2 0 [[tip2000]] = Returned limitedTips s'
    /\ s' !! limitedTips = Some result
    /\ ([tip2000] = [] -> result = [])
    /\ (Forall (fun t => (1000 < amount t)%Z) [tip2000] -> result = [])
    /\ (forall (fuel' : nat) (e : error),
          limitTips 3 1000 fuel' 0 [[tip2000]] <> Thrown e).
Proof.
  apply (limitTips_never_throws 3 1000 2 0 [tip2000] [[tip2000]]);
    [reflexivity | lia | simpl; lia].
Defined.

(** C10: the list [limitTips] returns is in non-increasing order of amount,
    and is a sub-multiset of the tips of its argument: each tip returned is
    one of the tips given, no more often than it was given. *)
Theorem limitTips_sorted_selection {T : Type} `{Tip T}
    (MAX_TIPS_WITHDRAWABLE MAX_TIP_SATS : Z)
    (fuel : nat) (r : ref) (tips : list T) (s : store T) :
  s !! r = Some tips -> (0 <= MAX_TIP_SATS)%Z -> length tips < fuel ->
  exists (limitedTips : ref) (s' : store T) (result : list T),
    limitTips MAX_TIPS_WITHDRAWABLE MAX_TIP_SATS fuel r s
      = Returned limitedTips s'
    /\ s' !! limitedTips = Some result
    /\ Sorted (fun a b => (amount b <= amount a)%Z) result
    /\ result ⊆+ tips
    /\ (forall t, t ∈ result -> t ∈ tips).
Proof.
  intros Hr Hmax Hfuel.
  destruct (limitTips_store MAX_TIPS_WITHDRAWABLE MAX_TIP_SATS
                            fuel r tips s Hr Hmax Hfuel)
    as (s' & Hrun & Hresult & _).
  exists (length s), s', (limited MAX_TIPS_WITHDRAWABLE MAX_TIP_SATS tips).
  split_and!; try done.
  - apply limited_nonIncreasing.
  - apply limited_submseteq.
  - intros t Ht. eapply elem_of_submseteq; [done|apply limited_submseteq].
Qed.

Lemma limitTips_sorted_selection_witness :
  exists (limitedTips : ref) (s' : store tip) (result : list tip),
    limitTips 3 1000 5 0 [fourTips] = Returned limitedTips s'
    /\ s' !! limitedTips = Some result
    /\ Sorted (fun a b => (amount b <= amount a)%Z) result
    /\ result ⊆+ fourTips
    /\ (forall t, t ∈ result -> t ∈ fourTips).
Proof.
  apply (limitTips_sorted_selection 3 1000 5 0 fourTips [fourTips]);
    [reflexivity | lia | simpl; lia].
Defined.

(** ** FeeCalculator *)

Section FeeFacts.

Variable FEE_PERCENT : Q.
Variable MINIMUM_FEE_SATS : Z.

Local Open Scope Q_scope.

Lemma feeFactor_nonneg : 0 <= FEE_PERCENT -> 0 <= feeFactor FEE_PERCENT.
Proof.
  intros Hp. unfold feeFactor, Qdiv.
  apply Qmult_le_0_compat; [done|]. by apply Qinv_le_0_compat.
Qed.

Lemma feeFactor_le_1 : FEE_PERCENT <= 100 -> feeFactor FEE_PERCENT <= 1.
Proof.
  intros Hp. unfold feeFactor. apply Qle_shift_div_r; [done|].
  by rewrite Qmult_1_l.
Qed.

(** The percentage of an amount, rounded up, grows with the amount. *)
Lemma ceil_percent_monotone (a b : Z) :
  0 <= FEE_PERCENT -> (a <= b)%Z ->
  (Qceiling (inject_Z a * feeFactor FEE_PERCENT)
   <= Qceiling (inject_Z b * feeFactor FEE_PERCENT))%Z.
Proof.
  intros Hp Hab. apply Qceiling_resp_le, Qmult_le_compat_r.
  - by rewrite <- Zle_Qle.
  - by apply feeFactor_nonneg.
Qed.

Lemma originalFee_monotone (a b : Z) :
  0 <= FEE_PERCENT -> (a <= b)%Z ->
  (originalFee FEE_PERCENT MINIMUM_FEE_SATS a
   <= originalFee FEE_PERCENT MINIMUM_FEE_SATS b)%Z.
Proof.
  intros Hp Hab. unfold originalFee.
  pose proof (ceil_percent_monotone a b Hp Hab). lia.
Qed.

Lemma calculateFee_monotone_le (a b : Z) :
  0 <= FEE_PERCENT -> (a <= b)%Z ->
  (calculateFee FEE_PERCENT MINIMUM_FEE_SATS a
   <= calculateFee FEE_PERCENT MINIMUM_FEE_SATS b)%Z.
Proof.
  intros Hp Hab. unfold calculateFee.
  pose proof (originalFee_monotone a b Hp Hab) as Ho.
  pose proof (ceil_percent_monotone
                (a + originalFee FEE_PERCENT MINIMUM_FEE_SATS a)
                (b + originalFee FEE_PERCENT MINIMUM_FEE_SATS b)
                Hp ltac:(lia)).
  lia.
Qed.

Lemma calculateFee_ge_minimum (amount : Z) :
  (MINIMUM_FEE_SATS <= calculateFee FEE_PERCENT MINIMUM_FEE_SATS amount)%Z.
Proof. unfold calculateFee. lia. Qed.

(** The fee is at least the percentage of the amount plus the provisional
    fee: the one recomputation the code makes. *)
Lemma calculateFee_ge_recomputed (amount : Z) :
  (Qceiling (inject_Z (amount + originalFee FEE_PERCENT MINIMUM_FEE_SATS amount)
             * feeFactor FEE_PERCENT)
   <= calculateFee FEE_PERCENT MINIMUM_FEE_SATS amount)%Z.
Proof. unfold calculateFee. lia. Qed.

Lemma ceil_percent_le (m : Z) :
  (0 <= m)%Z -> FEE_PERCENT <= 100 ->
  (Qceiling (inject_Z m * feeFactor FEE_PERCENT) <= m)%Z.
Proof.
  intros Hm Hp. rewrite <- (Qceiling_Z m) at 2.
  apply Qceiling_resp_le.
  rewrite <- (Qmult_1_r (inject_Z m)) at 2.
  rewrite !(Qmult_comm (inject_Z m)).
  apply Qmult_le_compat_r; [by apply feeFactor_le_1|].
  by rewrite <- (Zle_Qle 0).
Qed.

Lemma originalFee_0 :
  (0 <= MINIMUM_FEE_SATS)%Z ->
  originalFee FEE_PERCENT MINIMUM_FEE_SATS 0 = MINIMUM_FEE_SATS.
Proof.
  intros Hm. unfold originalFee.
  rewrite (Qceiling_comp (inject_Z 0 * feeFactor FEE_PERCENT) 0)
    by apply Qmult_0_l.
  change (Qceiling 0) with 0%Z. lia.
Qed.

Lemma calculateFee_0 :
  (0 <= MINIMUM_FEE_SATS)%Z -> FEE_PERCENT <= 100 ->
  calculateFee FEE_PERCENT MINIMUM_FEE_SATS 0 = MINIMUM_FEE_SATS.
Proof.
  intros Hm Hp. unfold calculateFee. rewrite originalFee_0 by done.
  rewrite Z.add_0_l.
  pose proof (ceil_percent_le MINIMUM_FEE_SATS Hm Hp). lia.
Qed.

End FeeFacts.

(** For a whole percentage the rounding up is that of an integer
    division. *)
Lemma ceil_percent_Z (n p : Z) :
  Qceiling (inject_Z n * feeFactor (inject_Z p)) = (- (- (n * p) / 100))%Z.
Proof.
  unfold Qceiling, Qfloor, feeFactor. simpl.
  rewrite Z.mul_1_r. done.
Qed.

Lemma ceil_reserve_Z (n p : Z) :
  Qceiling (inject_Z n * inject_Z p / 100) = (- (- (n * p) / 100))%Z.
Proof.
  unfold Qceiling, Qfloor. simpl.
  rewrite Z.mul_1_r. done.
Qed.

(** At one percent, whatever the minimum fee, some amount is left with a
    fee below one percent of the amount and the fee together. *)
Lemma calculateFee_reserve_missed_for_all_minimums (MINIMUM_FEE_SATS : Z) :
  exists amount : Z,
    (0 <= amount)%Z
    /\ ~ feeReserveMet 1 amount (calculateFee 1 MINIMUM_FEE_SATS amount).
Proof.
  set (k := Z.max 1 MINIMUM_FEE_SATS).
  exists (10000 * k)%Z. split; [lia|].
  assert (originalFee 1 MINIMUM_FEE_SATS (10000 * k) = (100 * k)%Z) as Ho.
  { unfold originalFee. change 1%Q with (inject_Z 1).
    rewrite ceil_percent_Z.
    replace (- (10000 * k * 1))%Z with ((- (100 * k)) * 100)%Z by lia.
    rewrite Z.div_mul by done. lia. }
  assert (calculateFee 1 MINIMUM_FEE_SATS (10000 * k) = (101 * k)%Z) as Hf.
  { unfold calculateFee. rewrite Ho. change 1%Q with (inject_Z 1).
    rewrite ceil_percent_Z.
    replace (- ((10000 * k + 100 * k) * 1))%Z with ((- (101 * k)) * 100)%Z
      by lia.
    rewrite Z.div_mul by done. lia. }
  unfold feeReserveMet. rewrite Hf. change 1%Q with (inject_Z 1).
  rewrite ceil_reserve_Z.
  pose proof (Z.div_mod (- ((10000 * k + 101 * k) * 1)) 100 ltac:(done)).
  pose proof (Z.mod_pos_bound (- ((10000 * k + 101 * k) * 1)) 100
                              ltac:(done)).
  lia.
Qed.

(** With a fee of one percent and a minimum of 2 sats, 10000 sats is the
    least amount whose fee misses the reserve. *)
Lemma calculateFee_reserve_met_below_10000 (amount : Z) :
  (0 <= amount < 10000)%Z ->
  feeReserveMet 1 amount (calculateFee 1 2 amount).
Proof.
  intros Ha. unfold feeReserveMet, calculateFee, originalFee.
  change 1%Q with (inject_Z 1).
  rewrite ceil_reserve_Z, !ceil_percent_Z, !Z.mul_1_r.
  set (c := (- (- amount / 100))%Z).
  assert (100 * (c - 1) < amount <= 100 * c)%Z as Hc
      by (unfold c; Z.div_mod_to_equations; lia).
  clearbody c.
  set (f := (- (- (amount + Z.max 2 c) / 100))%Z).
  assert (100 * (f - 1) < amount + Z.max 2 c <= 100 * f)%Z as Hf
      by (unfold f; Z.div_mod_to_equations; lia).
  clearbody f.
  set (t := (- (- (amount + Z.max 2 f) / 100))%Z).
  assert (100 * (t - 1) < amount + Z.max 2 f <= 100 * t)%Z as Ht
      by (unfold t; Z.div_mod_to_equations; lia).
  clearbody t. lia.
Qed.

(** C1 fails on the code: with a fee of one percent and a minimum of 2
    sats, the fee of 10000 sats is 101 sats, and one percent of the 10101
    sats withdrawn with the fee, rounded up, is 102 sats.  The binary64
    transcription computes the same fee. *)
Theorem calculateFee_reserve_missed :
  originalFee 1 2 10000 = 100%Z
  /\ calculateFee 1 2 10000 = 101%Z
  /\ Qceiling (inject_Z (10000 + 101) * 1 / 100) = 102%Z
  /\ ~ feeReserveMet 1 10000 (calculateFee 1 2 10000)
  /\ Binary64.toZ (Binary64.calculateFee64 (Binary64.ofZ 1) (Binary64.ofZ 2)
                                           (Binary64.ofZ 10000))
     = Some 101%Z.
Proof.
  split_and!; [by vm_compute..| |by vm_compute].
  unfold feeReserveMet. vm_compute. intros Hle. by apply Hle.
Qed.



(** C7: with [FEE_PERCENT = 1] and [MINIMUM_FEE_SATS = 2], the fee of 100
    sats is 2 sats (provisional fee 2) and the fee of 1000 sats is 11 sats
    (provisional fee 10, then one percent of 1010 rounded up); the binary64
    transcription computes the same fees. *)
Theorem calculateFee_examples :
  originalFee 1 2 100 = 2%Z
  /\ calculateFee 1 2 100 = 2%Z
  /\ originalFee 1 2 1000 = 10%Z
  /\ calculateFee 1 2 1000 = 11%Z
  /\ Binary64.toZ (Binary64.calculateFee64 (Binary64.ofZ 1) (Binary64.ofZ 2)
                                           (Binary64.ofZ 100))
     = Some 2%Z
  /\ Binary64.toZ (Binary64.calculateFee64 (Binary64.ofZ 1) (Binary64.ofZ 2)
                                           (Binary64.ofZ 1000))
     = Some 11%Z.
Proof. split_and!; by vm_compute. Qed.



(** ** calculateFee in binary64

    The fee JavaScript computes, for a fee of one percent: every operation
    of [calculateFee64] rounds as IEEE 754 prescribes, and the result is
    nevertheless the fee of the exact arithmetic, for every minimum fee and
    every amount below [2 ^ 52] sats. *)

Section Binary64Exact.

Import Binary64.
Local Open Scope Z_scope.

Lemma digits2_pos_size (m : positive) : digits2_pos m = Pos.size m.
Proof. induction m; simpl; congruence. Qed.

Lemma size_bounds (m : positive) :
  2 ^ (Zpos (Pos.size m) - 1) <= Zpos m < 2 ^ Zpos (Pos.size m).
Proof.
  split.
  - pose proof (Pos.size_le m) as Hle.
    assert (Zpos (2 ^ Pos.size m) <= Zpos m~0) as Hz by exact Hle.
    rewrite Pos2Z.inj_pow in Hz.
    replace (Zpos (Pos.size m)) with (Z.succ (Zpos (Pos.size m) - 1)) in Hz by lia.
    rewrite Z.pow_succ_r in Hz by lia. lia.
  - pose proof (Pos.size_gt m) as Hgt.
    assert (Zpos m < Zpos (2 ^ Pos.size m)) as Hz by exact Hgt.
    now rewrite Pos2Z.inj_pow in Hz.
Qed.

(** the number of binary digits is determined by the bounds *)
Lemma size_unique (m : positive) (d : Z) :
  2 ^ (d - 1) <= Zpos m < 2 ^ d -> Zpos (Pos.size m) = d.
Proof.
  intros [Hlo Hhi]. pose proof (size_bounds m) as [Hlo' Hhi'].
  assert (0 < d) as Hd.
  { destruct (Z.le_gt_cases d 0) as [Hle|]; [|lia].
    assert (2 ^ d <= 2 ^ 0) by (destruct (Z.eq_dec d 0); [subst; lia|rewrite Z.pow_neg_r by lia; simpl; lia]).
    simpl in *. lia. }
  destruct (Z.lt_trichotomy (Zpos (Pos.size m)) d) as [Hlt|[Heq|Hgt]]; [|lia|].
  - assert (2 ^ Zpos (Pos.size m) <= 2 ^ (d - 1)) by (apply Z.pow_le_mono_r; lia). lia.
  - assert (2 ^ d <= 2 ^ (Zpos (Pos.size m) - 1)) by (apply Z.pow_le_mono_r; lia). lia.
Qed.

Lemma iter_pos_nat {A : Type} (f : A -> A) (p : positive) (x : A) :
  SpecFloat.iter_pos f p x = Nat.iter (Pos.to_nat p) f x.
Proof.
  revert x. induction p as [p IH|p IH|]; intros x;
    cbn [SpecFloat.iter_pos]; [| |done].
  - rewrite !IH, Pos2Nat.inj_xI.
    replace (S (2 * Pos.to_nat p))%nat
      with (Pos.to_nat p + (Pos.to_nat p + 1))%nat by lia.
    by rewrite !Nat.iter_add.
  - rewrite !IH, Pos2Nat.inj_xO.
    replace (2 * Pos.to_nat p)%nat
      with (Pos.to_nat p + Pos.to_nat p)%nat by lia.
    by rewrite Nat.iter_add.
Qed.

Lemma shr_1_nonneg (m : Z) (r s : bool) :
  0 <= m ->
  shr_1 (Build_shr_record m r s)
  = Build_shr_record (m / 2) (Z.odd m) (r || s).
Proof.
  intros Hm. destruct m as [|p|p]; [done| |lia].
  destruct p as [p|p|]; simpl; f_equal.
  - rewrite Pos2Z.inj_xI. apply Z.div_unique with 1; lia. 
  - rewrite Pos2Z.inj_xO. apply Z.div_unique with 0; lia. 
Qed.

Lemma mod_pow2_succ (m : Z) (k : Z) :
  0 <= m -> 0 <= k ->
  m mod 2 ^ (k + 1) = m mod 2 ^ k + (if Z.odd (m / 2 ^ k) then 2 ^ k else 0).
Proof.
  intros Hm Hk. rewrite Z.pow_add_r, Z.pow_1_r by lia.
  assert (0 < 2 ^ k) as Hpos by (apply Z.pow_pos_nonneg; lia).
  rewrite Z.rem_mul_r by lia.
  rewrite (Zmod_odd (m / 2 ^ k)).
  destruct (Z.odd (m / 2 ^ k)); lia.
Qed.

Lemma shr_iter (m : Z) (k : nat) :
  0 <= m ->
  Nat.iter k shr_1 (Build_shr_record m false false) = shiftedOut m k.
Proof.
  intros Hm. induction k as [|k IH]; [done|].
  simpl Nat.iter. rewrite IH. clear IH.
  assert (forall j : Z, 0 <= j -> 0 < 2 ^ j) as Hpos
      by (intros; apply Z.pow_pos_nonneg; lia).
  destruct k as [|k].
  - unfold shiftedOut. rewrite shr_1_nonneg by done.
    simpl Z.of_nat. rewrite Z.pow_0_r, Z.pow_1_r, Z.div_1_r, Z.mod_1_r. done.
  - unfold shiftedOut. rewrite shr_1_nonneg by (apply Z.div_pos; [lia|apply Hpos; lia]).
    f_equal.
    + rewrite Z.div_div by (try apply Z.neq_sym, Z.lt_neq, Hpos; lia).
      f_equal. rewrite (Nat2Z.inj_succ (S k)), Z.pow_succ_r; lia.
    + rewrite (Nat2Z.inj_succ k), <- Z.add_1_r.
      rewrite (mod_pow2_succ m (Z.of_nat k)) by lia.
      pose proof (Z.mod_pos_bound m (2 ^ Z.of_nat k) (Hpos (Z.of_nat k) ltac:(lia))).
      pose proof (Hpos (Z.of_nat k) ltac:(lia)).
      destruct (Z.odd (m / 2 ^ Z.of_nat k)); simpl.
      * symmetry. apply negb_true_iff, Z.eqb_neq. lia.
      * by rewrite Z.add_0_r.
Qed.

Lemma pow2_pos (j : Z) : 0 <= j -> 0 < 2 ^ j.
Proof. intros. apply Z.pow_pos_nonneg; lia. Qed.

(** Rounding to nearest even after [k] bits are shifted out is off by at
    most half a unit of the last place kept. *)
Lemma round_shiftedOut (m : Z) (k : nat) :
  0 <= m ->
  let mr := round_nearest_even (shr_m (shiftedOut m k))
                               (loc_of_shr_record (shiftedOut m k)) in
  m / 2 ^ Z.of_nat k <= mr <= m / 2 ^ Z.of_nat k + 1
  /\ - 2 ^ Z.of_nat k <= 2 * (mr * 2 ^ Z.of_nat k - m) <= 2 ^ Z.of_nat k.
Proof.
  intros Hm. destruct k as [|k]; simpl shiftedOut.
  - simpl. rewrite Z.div_1_r. lia.
  - cbn [shr_m loc_of_shr_record].
    set (K := 2 ^ Z.of_nat k).
    assert (0 < K) as HK by (apply pow2_pos; lia).
    assert (2 ^ Z.of_nat (S k) = 2 * K) as ->.
    { rewrite Nat2Z.inj_succ, Z.pow_succ_r by lia. done. }
    pose proof (Z.div_mod m K ltac:(lia)) as Hdm.
    pose proof (Z.mod_pos_bound m K HK) as Hrho.
    assert (m / (2 * K) = m / K / 2) as Hq.
    { rewrite Z.div_div by lia. f_equal. lia. }
    pose proof (Z.div_mod (m / K) 2 ltac:(lia)) as Hdm2.
    rewrite Zmod_odd in Hdm2. rewrite Hq.
    set (q := m / K / 2) in *.
    destruct (Z.odd (m / K)) eqn:Hodd;
      destruct (Z.eqb_spec (m mod K) 0) as [Hz|Hz]; simpl.
    + destruct (Z.even q); nia.
    + nia.
    + nia.
    + nia.
Qed.

Lemma shr_nonneg (m e n : Z) :
  0 <= m ->
  shr (Build_shr_record m false false) e n
  = (shiftedOut m (Z.to_nat n), e + Z.max 0 n).
Proof.
  intros Hm. destruct n as [|p|p]; simpl.
  - by rewrite Z.add_0_r.
  - by rewrite iter_pos_nat, shr_iter.
  - by rewrite Z.add_0_r.
Qed.

Lemma fexp_normal (x : Z) : -1074 <= x - 53 -> fexp prec emax x = x - 53.
Proof. unfold fexp, emin, prec, emax. lia. Qed.

Lemma shr_fexp_exact (m : positive) (e : Z) :
  -1074 <= Zpos (Pos.size m) + e - 53 ->
  shr_fexp prec emax (Zpos m) e loc_Exact
  = (shiftedOut (Zpos m) (Z.to_nat (Zpos (Pos.size m) - 53)),
     e + Z.max 0 (Zpos (Pos.size m) - 53)).
Proof.
  intros Hnormal. unfold shr_fexp. cbn [Zdigits2 shr_record_of_loc].
  rewrite digits2_pos_size, fexp_normal by done.
  rewrite shr_nonneg by done.
  by replace (Zpos (Pos.size m) + e - 53 - e) with (Zpos (Pos.size m) - 53)
    by lia.
Qed.

(** Rounding a mantissa [m] at exponent [e], in the normal range: the
    result is within half a unit of the last place of [m * 2 ^ e]. *)
Lemma binary_round_aux_exact (m : positive) (e : Z) :
  let d := Zpos (Pos.size m) in
  let k := Z.max 0 (d - 53) in
  -1074 <= d + e - 53 -> e + k + 1 <= 971 ->
  exists (m' : positive) (e' : Z),
    binary_round_aux prec emax false (Zpos m) e loc_Exact
    = S754_finite false m' e'
    /\ e + k <= e' <= e + k + 1
    /\ - 2 ^ k <= 2 * (Zpos m' * 2 ^ (e' - e) - Zpos m) <= 2 ^ k
    /\ (53 <= d -> Zpos (Pos.size m') = 53)
    /\ (d <= 53 -> m' = m /\ e' = e).
Proof.
  intros d k Hlo Hhi. unfold binary_round_aux.
  rewrite shr_fexp_exact by done. fold d. fold k.
  destruct (Z.le_gt_cases d 53) as [Hd|Hd].
  - (* nothing is shifted out *)
    replace (Z.to_nat (d - 53)) with O by lia.
    cbn [shiftedOut shr_m loc_of_shr_record round_nearest_even].
    rewrite shr_fexp_exact by (fold d; lia). fold d.
    replace (Z.to_nat (d - 53)) with O by lia.
    cbn [shiftedOut shr_m].
    replace (e + k + Z.max 0 (d - 53) <=? emax - prec) with true
      by (symmetry; apply Z.leb_le; unfold emax, prec; lia).
    exists m, e. rewrite Z.sub_diag, Z.pow_0_r.
    split_and!; [f_equal; lia|lia..].
  - (* [d - 53] bits are shifted out *)
    assert (k = d - 53) as Hk by lia.
    pose proof (round_shiftedOut (Zpos m) (Z.to_nat (d - 53)) ltac:(done))
      as Hround.
    set (mr := round_nearest_even _ _) in *.
    cbv zeta in Hround. destruct Hround as [Hmr Herr].
    rewrite Z2Nat.id in Hmr, Herr by lia. rewrite <- Hk in Hmr, Herr.
    clearbody mr.
    pose proof (size_bounds m) as [Hm1 Hm2]. fold d in Hm1, Hm2.
    assert (0 < 2 ^ k) as Hpk by (apply pow2_pos; lia).
    assert (2 ^ (d - 1) = 2 ^ k * 2 ^ 52) as Hd1
        by (rewrite <- Z.pow_add_r by lia; f_equal; lia).
    assert (2 ^ d = 2 ^ k * 2 ^ 53) as Hd2
        by (rewrite <- Z.pow_add_r by lia; f_equal; lia).
    assert (2 ^ 52 <= Zpos m / 2 ^ k) as Hq1
        by (apply Z.div_le_lower_bound; lia).
    assert (Zpos m / 2 ^ k < 2 ^ 53) as Hq2
        by (apply Z.div_lt_upper_bound; lia).
    destruct mr as [|pr|pr]; [lia| |lia].
    destruct (Z.eq_dec (Zpos pr) (2 ^ 53)) as [Hcarry|Hcarry].
    + (* the rounding carries into a 54th bit *)
      assert (Zpos (Pos.size pr) = 54) as Hsize
          by (apply size_unique; rewrite Hcarry; lia).
      rewrite shr_fexp_exact by (rewrite Hsize; lia). rewrite Hsize.
      change (Z.to_nat (54 - 53)) with 1%nat.
      cbn [shiftedOut shr_m]. rewrite Hcarry.
      change (2 ^ 53 / 2 ^ Z.of_nat 1) with (Zpos (2 ^ 52)).
      cbv iota beta.
      replace (e + k + Z.max 0 (54 - 53) <=? emax - prec) with true
        by (symmetry; apply Z.leb_le; unfold emax, prec; lia).
      exists (2 ^ 52)%positive, (e + k + Z.max 0 (54 - 53)).
      split_and!; try done; try lia.
      * replace (e + k + Z.max 0 (54 - 53) - e) with (k + 1) by lia.
        rewrite Z.pow_add_r, Z.pow_1_r by lia.
        rewrite Hcarry in Herr.
        change (Zpos (2 ^ 52)) with (2 ^ 52). lia.
      * replace (e + k + Z.max 0 (54 - 53) - e) with (k + 1) by lia.
        rewrite Z.pow_add_r, Z.pow_1_r by lia.
        rewrite Hcarry in Herr.
        change (Zpos (2 ^ 52)) with (2 ^ 52). lia.
    + assert (Zpos (Pos.size pr) = 53) as Hsize
          by (apply size_unique; lia).
      rewrite shr_fexp_exact by (rewrite Hsize; lia). rewrite Hsize.
      change (Z.to_nat (53 - 53)) with O.
      cbn [shiftedOut shr_m].
      replace (e + k + Z.max 0 (53 - 53) <=? emax - prec) with true
        by (symmetry; apply Z.leb_le; unfold emax, prec; lia).
      exists pr, (e + k + Z.max 0 (53 - 53)).
      replace (e + k + Z.max 0 (53 - 53) - e) with k by lia.
      split_and!; try done; lia.
Qed.

Lemma size_53_bounds (m : positive) :
  Zpos (Pos.size m) = 53 -> 2 ^ 52 <= Zpos m < 2 ^ 53.
Proof. intros Hs. pose proof (size_bounds m) as Hb. by rewrite Hs in Hb. Qed.

Lemma normalOf_unique (x y : number) (n : Z) :
  normalOf x n -> normalOf y n -> x = y.
Proof.
  intros (m1 & e1 & -> & Hs1 & He1 & Hv1) (m2 & e2 & -> & Hs2 & He2 & Hv2).
  apply size_53_bounds in Hs1, Hs2.
  assert (forall a b ea eb : Z,
             ea <= 0 -> eb <= 0 -> ea < eb ->
             2 ^ 52 <= a < 2 ^ 53 -> 2 ^ 52 <= b < 2 ^ 53 ->
             a = n * 2 ^ (- ea) -> b = n * 2 ^ (- eb) -> False) as Hne.
  { intros a b ea eb Hea Heb Hlt Ha Hb Hva Hvb.
    replace (- ea) with (- eb + (eb - ea)) in Hva by lia.
    rewrite Z.pow_add_r, Z.mul_assoc, <- Hvb in Hva by lia.
    assert (2 ^ 1 <= 2 ^ (eb - ea)) by (apply Z.pow_le_mono_r; lia).
    change (2 ^ 1) with 2 in *. nia. }
  destruct (Z.lt_trichotomy e1 e2) as [Hlt|[Heq|Hgt]].
  - exfalso. by eapply (Hne (Zpos m1) (Zpos m2) e1 e2).
  - subst e2. f_equal. lia.
  - exfalso. by eapply (Hne (Zpos m2) (Zpos m1) e2 e1).
Qed.

Lemma size_shift (a b : positive) (p : Z) :
  0 <= p -> Zpos a = Zpos b * 2 ^ p ->
  Zpos (Pos.size a) = Zpos (Pos.size b) + p.
Proof.
  intros Hp Hab. apply size_unique. rewrite Hab.
  pose proof (size_bounds b) as [Hb1 Hb2].
  pose proof (pow2_pos p Hp).
  replace (Zpos (Pos.size b) + p - 1) with (Zpos (Pos.size b) - 1 + p) by lia.
  rewrite !Z.pow_add_r by lia. nia.
Qed.

Lemma iter_xO (m p : positive) :
  Zpos (Pos.iter xO m p) = Zpos m * 2 ^ Zpos p.
Proof.
  induction p as [|p IH] using Pos.peano_ind.
  - simpl. lia.
  - rewrite Pos.iter_succ, Pos2Z.inj_xO, IH, Pos2Z.inj_succ.
    rewrite Z.pow_succ_r by lia. lia.
Qed.

(** Rounding [m * 2 ^ (- j)], an integer [N] below [2 ^ 53], gives the
    normal number of value [N]. *)
Lemma binary_round_normalOf (m : positive) (j N : Z) :
  0 <= j <= 1000 -> Zpos m = N * 2 ^ j -> 0 < N < 2 ^ 53 ->
  normalOf (binary_round prec emax false m (- j)) N.
Proof.
  intros Hj Hm HN.
  destruct N as [|n|n]; [lia| |lia].
  pose proof (size_shift m n j ltac:(lia) Hm) as Hsize.
  assert (Zpos (Pos.size n) <= 53) as Hn53.
  { pose proof (size_bounds n) as [Hn1 _].
    destruct (Z.le_gt_cases (Zpos (Pos.size n)) 53) as [|Hgt]; [done|].
    assert (2 ^ 53 <= 2 ^ (Zpos (Pos.size n) - 1))
      by (apply Z.pow_le_mono_r; lia).
    lia. }
  unfold binary_round. rewrite digits2_pos_size, fexp_normal by lia.
  unfold shl_align.
  replace (Zpos (Pos.size m) + - j - 53 - - j) with (Zpos (Pos.size m) - 53)
    by lia.
  destruct (Zpos (Pos.size m) - 53) as [|p|p] eqn:Ek.
  - (* the mantissa has 53 bits already *)
    destruct (binary_round_aux_exact m (- j) ltac:(lia) ltac:(lia))
      as (m' & e' & -> & _ & _ & _ & Hsame).
    destruct (Hsame ltac:(lia)) as [-> ->].
    exists m, (- j). split_and!; [done|lia|lia|].
    by rewrite Z.opp_involutive.
  - (* more than 53 bits: the bits shifted out are zeros *)
    destruct (binary_round_aux_exact m (- j) ltac:(lia) ltac:(lia))
      as (m' & e' & -> & He' & Herr & Hs' & _).
    specialize (Hs' ltac:(lia)).
    replace (Z.max 0 (Zpos (Pos.size m) - 53)) with (Zpos p) in * by lia.
    set (g := e' - - j) in *.
    assert (Zpos p <= g <= Zpos p + 1) as Hg by (unfold g; lia).
    assert (Zpos m' * 2 ^ g = Zpos m) as Hval.
    { assert (2 ^ g = 2 ^ Zpos p * 2 ^ (g - Zpos p)) as Hgp
        by (rewrite <- Z.pow_add_r by lia; f_equal; lia).
      assert (Zpos m = 2 ^ Zpos p * (Zpos n * 2 ^ (j - Zpos p))) as Hmp.
      { rewrite Hm, Z.mul_assoc, (Z.mul_comm _ (Zpos n)), <- Z.mul_assoc.
        rewrite <- Z.pow_add_r by lia. do 2 f_equal. lia. }
      pose proof (pow2_pos (Zpos p) ltac:(lia)).
      rewrite Hgp, Hmp in *. 
      set (P := 2 ^ Zpos p) in *. 
      set (A := Zpos m' * 2 ^ (g - Zpos p)) in *.
      set (B := Zpos n * 2 ^ (j - Zpos p)) in *.
      assert (Zpos m' * (P * 2 ^ (g - Zpos p)) = P * A) as -> by (unfold A; lia).
      assert (Zpos m' * (P * 2 ^ (g - Zpos p)) = P * A) as HA by (unfold A; lia).
      rewrite HA in Herr.
      assert (2 * (A - B) <= 1)
        by (apply (Z.mul_le_mono_pos_l _ _ P); lia).
      assert (-1 <= 2 * (A - B))
        by (apply (Z.mul_le_mono_pos_l _ _ P); lia).
      f_equal. lia. }
    pose proof (size_shift m m' g ltac:(lia) (eq_sym Hval)) as Hsize'.
    assert (g = Zpos p) as Hgeq by lia.
    exists m', e'. split_and!; [done|done|lia|].
    replace (- e') with (j - g) by (unfold g; lia).
    rewrite Hgeq in *.
    assert (2 ^ j = 2 ^ (j - Zpos p) * 2 ^ Zpos p) as Hjp
        by (rewrite <- Z.pow_add_r by lia; f_equal; lia).
    pose proof (pow2_pos (Zpos p) ltac:(lia)).
    rewrite Hm, Hjp in Hval. nia.
  - (* fewer than 53 bits: the mantissa is shifted left *)
    change (PosDef.Pos.iter xO m p) with (Pos.iter xO m p).
    pose proof (iter_xO m p) as Hshift.
    pose proof (size_shift _ m (Zpos p) ltac:(lia) Hshift) as Hsz.
    assert (Zpos p = 53 - Zpos (Pos.size m)) as Hp
        by (pose proof (Pos2Z.opp_pos p); lia).
    destruct (binary_round_aux_exact (Pos.iter xO m p)
                (Zpos (Pos.size m) + - j - 53) ltac:(lia) ltac:(lia))
      as (m' & e' & Hr & _ & _ & _ & Hsame).
    rewrite Hr. destruct (Hsame ltac:(lia)) as [Hm' He'].
    exists m', e'. rewrite Hm', He'. split_and!; [done|lia|lia|].
    rewrite Hshift, Hm, <- Z.mul_assoc, <- Z.pow_add_r by lia.
    do 2 f_equal. lia.
Qed.

Lemma ofZ_normalOf (n : Z) : 0 < n < 2 ^ 53 -> normalOf (ofZ n) n.
Proof.
  intros Hn. destruct n as [|p|p]; [lia| |lia].
  unfold ofZ, binary_normalize. change 0 with (- 0) at 1.
  apply binary_round_normalOf; [lia| |done].
  rewrite Z.pow_0_r. lia.
Qed.

(** The normal number of value [n] is [ofZ n]. *)
Lemma normalOf_ofZ (x : number) (n : Z) :
  0 < n < 2 ^ 53 -> normalOf x n -> x = ofZ n.
Proof.
  intros Hn Hx. eapply normalOf_unique; [done|]. by apply ofZ_normalOf.
Qed.

Lemma toZ_ofZ (n : Z) : 0 <= n < 2 ^ 53 -> toZ (ofZ n) = Some n.
Proof.
  intros Hn. destruct (Z.eq_dec n 0) as [->|Hn0]; [done|].
  destruct (ofZ_normalOf n ltac:(lia)) as (m & e & -> & _ & He & Hm).
  unfold toZ. pose proof (pow2_pos (- e) ltac:(lia)).
  destruct (Z.leb_spec 0 e) as [He0|He0].
  - assert (e = 0) as -> by lia. simpl in *. f_equal. lia.
  - rewrite Hm, Z.mod_mul, Z.div_mul by lia. done.
Qed.

Lemma compare_normalOf (x y : number) (a b : Z) :
  normalOf x a -> normalOf y b -> SFcompare x y = Some (a ?= b).
Proof.
  intros (m1 & e1 & -> & Hs1 & He1 & Hv1) (m2 & e2 & -> & Hs2 & He2 & Hv2).
  apply size_53_bounds in Hs1, Hs2.
  assert (forall (ma mb ea eb a b : Z),
             ea <= 0 -> eb <= 0 -> ea < eb ->
             2 ^ 52 <= ma < 2 ^ 53 -> 2 ^ 52 <= mb < 2 ^ 53 ->
             ma = a * 2 ^ (- ea) -> mb = b * 2 ^ (- eb) -> a < b) as Hlt.
  { intros ma mb ea eb a' b' Hea Heb Hlt Ha Hb Hva Hvb.
    replace (- ea) with (- eb + (eb - ea)) in Hva by lia.
    rewrite Z.pow_add_r, Z.mul_assoc in Hva by lia.
    assert (2 ^ 1 <= 2 ^ (eb - ea)) as HE by (apply Z.pow_le_mono_r; lia).
    change (2 ^ 1) with 2 in HE.
    pose proof (pow2_pos (- eb) ltac:(lia)) as HP.
    set (P := 2 ^ (- eb)) in *. set (E := 2 ^ (eb - ea)) in *.
    destruct (Z.lt_ge_cases a' b') as [|Hge]; [done|exfalso].
    assert (b' * P <= a' * P) by nia.
    assert (b' * P * 2 <= a' * P * E) by nia.
    lia. }
  unfold SFcompare.
  destruct (Z.compare_spec e1 e2) as [Heq|Hlt12|Hgt12].
  - subst e2. rewrite Pos.compare_cont_spec.
    assert (forall c, Pos.switch_Eq Eq c = c) as -> by (by intros []).
    change (m1 ?= m2)%positive with (Zpos m1 ?= Zpos m2).
    rewrite Hv1, Hv2. f_equal. symmetry.
    apply Zmult_compare_compat_r, Z.lt_gt, pow2_pos. lia.
  - f_equal. symmetry. apply Z.compare_lt_iff.
    by eapply (Hlt (Zpos m1) (Zpos m2) e1 e2 a b).
  - f_equal. symmetry. apply Z.compare_gt_iff.
    by eapply (Hlt (Zpos m2) (Zpos m1) e2 e1 b a).
Qed.

Lemma Math_max_ofZ (a b : Z) :
  0 <= a < 2 ^ 53 -> 0 <= b < 2 ^ 53 ->
  Math_max (ofZ a) (ofZ b) = ofZ (Z.max a b).
Proof.
  intros Ha Hb.
  destruct (Z.eq_dec a 0) as [->|Ha0]; destruct (Z.eq_dec b 0) as [->|Hb0].
  - done.
  - destruct (ofZ_normalOf b ltac:(lia)) as (m & e & Hy & _).
    rewrite Z.max_r by lia. rewrite Hy. done.
  - destruct (ofZ_normalOf a ltac:(lia)) as (m & e & Hx & _).
    rewrite Z.max_l by lia. rewrite Hx. done.
  - pose proof (ofZ_normalOf a ltac:(lia)) as Hx.
    pose proof (ofZ_normalOf b ltac:(lia)) as Hy.
    unfold Math_max. rewrite (compare_normalOf _ _ a b Hx Hy).
    destruct (Z.compare_spec a b) as [Heq|Hlt|Hgt].
    + subst b. rewrite Z.max_id.
      destruct Hx as (m & e & -> & _). done.
    + by rewrite Z.max_r by lia.
    + by rewrite Z.max_l by lia.
Qed.

Lemma shl_align_value (m : positive) (e ez : Z) :
  ez <= e -> Zpos (fst (shl_align m e ez)) = Zpos m * 2 ^ (e - ez).
Proof.
  intros Hez. unfold shl_align.
  destruct (ez - e) as [|p|p] eqn:Ed; simpl.
  - replace (e - ez) with 0 by lia. lia.
  - lia.
  - change (PosDef.Pos.iter xO m p) with (Pos.iter xO m p).
    rewrite iter_xO. f_equal. f_equal. pose proof (Pos2Z.opp_pos p). lia.
Qed.

Lemma add_ofZ (a b : Z) :
  0 <= a -> 0 <= b -> a + b < 2 ^ 53 ->
  add (ofZ a) (ofZ b) = ofZ (a + b).
Proof.
  intros Ha Hb Hab.
  destruct (Z.eq_dec a 0) as [->|Ha0]; destruct (Z.eq_dec b 0) as [->|Hb0].
  - done.
  - destruct (ofZ_normalOf b ltac:(lia)) as (m & e & Hy & _).
    rewrite Z.add_0_l, Hy. done.
  - destruct (ofZ_normalOf a ltac:(lia)) as (m & e & Hx & _).
    rewrite Z.add_0_r, Hx. done.
  - destruct (ofZ_normalOf a ltac:(lia)) as (m1 & e1 & -> & Hs1 & He1 & Hv1).
    destruct (ofZ_normalOf b ltac:(lia)) as (m2 & e2 & -> & Hs2 & He2 & Hv2).
    apply normalOf_ofZ; [lia|].
    unfold add, SFadd. cbn [cond_Zopp].
    set (ez := Z.min e1 e2).
    rewrite !shl_align_value by (unfold ez; lia).
    apply size_53_bounds in Hs1, Hs2.
    assert (-52 <= e1). 
    { destruct (Z.le_gt_cases (-52) e1) as [|Hlt]; [done|exfalso].
      assert (2 ^ 53 <= 2 ^ (- e1)) by (apply Z.pow_le_mono_r; lia). nia. }
    assert (-52 <= e2). 
    { destruct (Z.le_gt_cases (-52) e2) as [|Hlt]; [done|exfalso].
      assert (2 ^ 53 <= 2 ^ (- e2)) by (apply Z.pow_le_mono_r; lia). nia. }
    assert (Zpos m1 * 2 ^ (e1 - ez) + Zpos m2 * 2 ^ (e2 - ez)
            = (a + b) * 2 ^ (- ez)) as Hsum.
    { rewrite Hv1, Hv2, <- !Z.mul_assoc, <- !Z.pow_add_r by (unfold ez; lia).
      replace (- e1 + (e1 - ez)) with (- ez) by lia.
      replace (- e2 + (e2 - ez)) with (- ez) by lia. lia. }
    rewrite Hsum.
    pose proof (pow2_pos (- ez) ltac:(unfold ez; lia)).
    destruct ((a + b) * 2 ^ (- ez)) as [|s|s] eqn:Es; [nia| |nia].
    unfold binary_normalize.
    replace ez with (- - ez) at 1 by lia.
    apply binary_round_normalOf; [unfold ez; lia|by rewrite Es|lia].
Qed.

Lemma ceil_div_100 (n : Z) :
  - (- n / 100) = if n mod 100 =? 0 then n / 100 else n / 100 + 1.
Proof.
  pose proof (Z.div_mod n 100 ltac:(done)) as Hn.
  pose proof (Z.mod_pos_bound n 100 ltac:(done)) as Hr.
  destruct (Z.eqb_spec (n mod 100) 0) as [Hz|Hz].
  - rewrite <- (Z.div_unique (- n) 100 (- (n / 100)) 0); lia.
  - rewrite <- (Z.div_unique (- n) 100 (- (n / 100 + 1)) (100 - n mod 100));
      lia.
Qed.

Lemma ceil_of_rounded (n u m' pk g cG : Z) :
  0 < n -> 1 <= u -> n * u < 2 ^ 53 ->
  0 < pk <= 2 ^ 53 -> pk <= g -> 0 < cG -> g * cG = 2 ^ 59 ->
  n * u * hundredth < 2 ^ 53 * pk ->
  - pk <= 2 * (m' * g - n * u * hundredth) <= pk ->
  (if m' mod (cG * u) =? 0 then m' / (cG * u) else m' / (cG * u) + 1)
  = - (- n / 100).
Proof.
  intros Hn Hu Hnu Hpk Hg HcG Hgc Hsize Herr.
  rewrite ceil_div_100.
  pose proof (Z.div_mod n 100 ltac:(done)) as Hdm.
  pose proof (Z.mod_pos_bound n 100 ltac:(done)) as Hr.
  set (q := n / 100) in *. set (r := n mod 100) in *.
  assert (0 <= q) as Hq by lia.
  set (G := cG * u). assert (0 < G) as HG by (unfold G; nia).
  set (QU := q * u). set (RU := r * u).
  assert (0 <= QU) as HQU by (unfold QU; nia).
  assert (100 * (n * u * hundredth) = (100 * QU + RU) * (2 ^ 59 + 12)) as HX.
  { unfold QU, RU, hundredth. rewrite Hdm. ring. }
  set (X := n * u * hundredth) in *.
  assert (n * u = 100 * QU + RU) as Hmn by (unfold QU, RU; rewrite Hdm; ring).
  assert (m' * g = g * (m' - cG * QU) + QU * 2 ^ 59) as Hmg
      by (rewrite <- Hgc; ring).
  set (t := m' - cG * QU) in *.
  destruct (Z.eqb_spec r 0) as [Hr0|Hr0].
  - (* a multiple of 100: the product rounds to the quotient *)
    assert (RU = 0) as HRU by (unfold RU; rewrite Hr0; lia).
    assert (t = 0) as Ht.
    { assert (g * t < g * 1) by lia.
      assert (g * (-1) < g * t) by lia.
      assert (t < 1) by (apply (Z.mul_lt_mono_pos_l g); lia).
      assert (-1 < t) by (apply (Z.mul_lt_mono_pos_l g); lia).
      lia. }
    assert (m' = q * G) as -> by (unfold t, QU, G in *; lia).
    rewrite Z.mod_mul, Z.div_mul by lia. done.
  - (* not a multiple: the product rounds within the unit interval *)
    assert (u <= RU <= 99 * u) as HRU by (unfold RU; nia).
    assert (0 < t) as Ht1.
    { assert (g * 0 < g * t) by lia.
      apply (Z.mul_lt_mono_pos_l g); lia. }
    assert (t <= cG * u) as Ht2.
    { assert (g * t <= g * (cG * u)).
      { replace (g * (cG * u)) with (2 ^ 59 * u)
          by (rewrite <- Hgc; ring). lia. }
      apply (Z.mul_le_mono_pos_l _ _ g); lia. }
    assert (m' = q * G + t) as Hm' by (unfold t, QU, G in *; lia).
    fold G in Ht2.
    destruct (Z.eq_dec t G) as [HtG|HtG].
    + replace m' with ((q + 1) * G) by lia.
      rewrite Z.mod_mul, Z.div_mul by lia. done.
    + assert (m' / G = q) as Hdiv
          by (symmetry; apply (Z.div_unique m' G q t); lia).
      assert (m' mod G = t) as Hmod
          by (symmetry; apply (Z.mod_unique m' G q t); lia).
      rewrite Hdiv, Hmod. destruct (Z.eqb_spec t 0); [lia|done].
Qed.

Lemma div_1_100 :
  div (ofZ 1) (ofZ 100) = S754_finite false 5764607523034235 (-59).
Proof. by vm_compute. Qed.

Lemma size_between (m : positive) (lo hi : Z) :
  0 <= lo -> 2 ^ lo <= Zpos m < 2 ^ hi -> lo < Zpos (Pos.size m) <= hi.
Proof.
  intros Hlo [Hm1 Hm2]. pose proof (size_bounds m) as [Hs1 Hs2].
  split.
  - destruct (Z.lt_ge_cases lo (Zpos (Pos.size m))) as [|Hge]; [done|].
    assert (2 ^ Zpos (Pos.size m) <= 2 ^ lo)
      by (apply Z.pow_le_mono_r; lia). lia.
  - destruct (Z.le_gt_cases (Zpos (Pos.size m)) hi) as [|Hgt]; [done|].
    assert (2 ^ hi <= 2 ^ (Zpos (Pos.size m) - 1))
      by (apply Z.pow_le_mono_r; lia). lia.
Qed.

(** One percent of an integer below [2 ^ 53], computed in binary64 and
    rounded up by [Math.ceil], is the exact percentage rounded up. *)
Lemma Math_ceil_percent (n : Z) :
  0 <= n < 2 ^ 53 ->
  Math_ceil (mul (ofZ n) (div (ofZ 1) (ofZ 100))) = ofZ (- (- n / 100)).
Proof.
  intros Hn. rewrite div_1_100.
  destruct (Z.eq_dec n 0) as [->|Hn0]; [done|].
  destruct (ofZ_normalOf n ltac:(lia)) as (mn & en & -> & Hs & Hen & Hv).
  apply size_53_bounds in Hs.
  unfold mul, SFmul. cbn [xorb].
  set (X := (mn * 5764607523034235)%positive).
  assert (Zpos X = n * 2 ^ (- en) * hundredth) as HX
      by (unfold X, hundredth; rewrite Pos2Z.inj_mul, Hv; done).
  assert (104 < Zpos (Pos.size X) <= 106) as Hd.
  { apply size_between; [lia|]. rewrite HX, <- Hv. unfold hundredth. lia. }
  assert (-52 <= en) as Hen'.
  { destruct (Z.le_gt_cases (-52) en) as [|Hlt]; [done|exfalso].
    assert (2 ^ 53 <= 2 ^ (- en)) by (apply Z.pow_le_mono_r; lia). nia. }
  destruct (binary_round_aux_exact X (en + -59) ltac:(lia) ltac:(lia))
    as (m' & e' & -> & He' & Herr & _).
  pose proof (size_bounds X) as [HX1 HX2].
  set (d := Zpos (Pos.size X)) in *.
  replace (Z.max 0 (d - 53)) with (d - 53) in * by lia.
  unfold Math_ceil.
  replace (0 <=? e') with false by (symmetry; apply Z.leb_gt; lia).
  cbv zeta. fold (ofZ (if Zpos m' mod 2 ^ (- e') =? 0
                       then Zpos m' / 2 ^ (- e')
                       else Zpos m' / 2 ^ (- e') + 1)).
  f_equal.
  assert (2 ^ (- e') = 2 ^ (59 - (e' - (en + -59))) * 2 ^ (- en)) as ->
      by (rewrite <- Z.pow_add_r by lia; f_equal; lia).
  apply (ceil_of_rounded n (2 ^ (- en)) (Zpos m') (2 ^ (d - 53))
                         (2 ^ (e' - (en + -59)))).
  - lia.
  - pose proof (pow2_pos (- en) ltac:(lia)). lia.
  - rewrite <- Hv. lia.
  - split; [apply pow2_pos; lia|apply Z.pow_le_mono_r; lia].
  - apply Z.pow_le_mono_r; lia.
  - apply pow2_pos; lia.
  - rewrite <- Z.pow_add_r by lia. f_equal. lia.
  - rewrite <- HX, <- Z.pow_add_r by lia.
    by replace (53 + (d - 53)) with d by lia.
  - by rewrite <- HX.
Qed.

Lemma ceil_div_100_bounds (n : Z) : 0 <= n -> 0 <= - (- n / 100) <= n.
Proof.
  intros Hn. rewrite ceil_div_100.
  pose proof (Z.div_mod n 100 ltac:(done)).
  pose proof (Z.mod_pos_bound n 100 ltac:(done)).
  destruct (Z.eqb_spec (n mod 100) 0); lia.
Qed.

(** At one percent, and for a minimum fee and an amount below [2 ^ 52]
    sats, the binary64 computation of the fee is exact: it returns the
    number that stands for [calculateFee 1 MINIMUM_FEE_SATS amount]. *)
Theorem calculateFee64_exact (MINIMUM_FEE_SATS amount : Z) :
  0 <= MINIMUM_FEE_SATS < 2 ^ 52 -> 0 <= amount < 2 ^ 52 ->
  calculateFee64 (ofZ 1) (ofZ MINIMUM_FEE_SATS) (ofZ amount)
  = ofZ (calculateFee 1 MINIMUM_FEE_SATS amount)
  /\ toZ (calculateFee64 (ofZ 1) (ofZ MINIMUM_FEE_SATS) (ofZ amount))
     = Some (calculateFee 1 MINIMUM_FEE_SATS amount).
Proof.
  intros HM Ha.
  assert (calculateFee 1 MINIMUM_FEE_SATS amount
          = Z.max MINIMUM_FEE_SATS
                  (- (- (amount + Z.max MINIMUM_FEE_SATS
                                        (- (- amount / 100))) / 100)))
    as Hexact.
  { unfold calculateFee, originalFee. change 1%Q with (inject_Z 1).
    by rewrite !ceil_percent_Z, !Z.mul_1_r. }
  pose proof (ceil_div_100_bounds amount ltac:(lia)) as Hc1.
  set (c1 := - (- amount / 100)) in *.
  set (f0 := Z.max MINIMUM_FEE_SATS c1) in *.
  pose proof (ceil_div_100_bounds (amount + f0) ltac:(lia)) as Hc2.
  set (c2 := - (- (amount + f0) / 100)) in *.
  assert (calculateFee64 (ofZ 1) (ofZ MINIMUM_FEE_SATS) (ofZ amount)
          = ofZ (calculateFee 1 MINIMUM_FEE_SATS amount)) as Hfee.
  { rewrite Hexact. unfold calculateFee64.
    rewrite (Math_ceil_percent amount) by lia. fold c1.
    rewrite (Math_max_ofZ MINIMUM_FEE_SATS c1) by lia. fold f0.
    rewrite (add_ofZ amount f0) by lia.
    rewrite (Math_ceil_percent (amount + f0)) by lia. fold c2.
    rewrite (Math_max_ofZ MINIMUM_FEE_SATS c2) by lia. done. }
  split; [done|]. rewrite Hfee. apply toZ_ofZ. rewrite Hexact. lia.
Qed.

(** The properties of the exact fee carry over to the binary64 fee. *)
Corollary calculateFee64_monotone (MINIMUM_FEE_SATS amount1 amount2 : Z) :
  0 <= MINIMUM_FEE_SATS < 2 ^ 52 ->
  0 <= amount1 <= amount2 -> amount2 < 2 ^ 52 ->
  exists fee1 fee2 : Z,
    toZ (calculateFee64 (ofZ 1) (ofZ MINIMUM_FEE_SATS) (ofZ amount1))
    = Some fee1
    /\ toZ (calculateFee64 (ofZ 1) (ofZ MINIMUM_FEE_SATS) (ofZ amount2))
       = Some fee2
    /\ fee1 <= fee2.
Proof.
  intros HM Ha Ha2.
  destruct (calculateFee64_exact MINIMUM_FEE_SATS amount1 HM ltac:(lia))
    as [_ H1].
  destruct (calculateFee64_exact MINIMUM_FEE_SATS amount2 HM ltac:(lia))
    as [_ H2].
  eexists _, _. split_and!; [done..|].
  apply calculateFee_monotone_le; [done|lia].
Qed.

Corollary calculateFee64_minimum (MINIMUM_FEE_SATS amount : Z) :
  0 <= MINIMUM_FEE_SATS < 2 ^ 52 -> 0 <= amount < 2 ^ 52 ->
  exists fee : Z,
    toZ (calculateFee64 (ofZ 1) (ofZ MINIMUM_FEE_SATS) (ofZ amount))
    = Some fee
    /\ MINIMUM_FEE_SATS <= fee
    /\ toZ (calculateFee64 (ofZ 1) (ofZ MINIMUM_FEE_SATS) (ofZ 0))
       = Some MINIMUM_FEE_SATS.
Proof.
  intros HM Ha.
  destruct (calculateFee64_exact MINIMUM_FEE_SATS amount HM Ha) as [_ H1].
  destruct (calculateFee64_exact MINIMUM_FEE_SATS 0 HM ltac:(lia))
    as [_ H0].
  eexists. split_and!; [done| |].
  - apply calculateFee_ge_minimum.
  - by rewrite H0, calculateFee_0 by (lia || done).
Qed.

End Binary64Exact.

(** * Further properties *)

(** ** limitTips *)

Lemma sumAmounts_app (l1 l2 : list Z) :
  sumAmounts (l1 ++ l2) = (sumAmounts l1 + sumAmounts l2)%Z.
Proof.
  induction l1 as [|x l1 IH]; simpl.
  - unfold sumAmounts at 2. simpl. lia.
  - rewrite !sumAmounts_cons, IH. lia.
Qed.

Lemma sumAmounts_Permutation (l1 l2 : list Z) :
  Permutation l1 l2 -> sumAmounts l1 = sumAmounts l2.
Proof.
  induction 1 as [|x l1 l2 _ IH|x y l|l1 l2 l3 _ IH1 _ IH2].
  - done.
  - by rewrite !sumAmounts_cons, IH.
  - rewrite !sumAmounts_cons. lia.
  - by rewrite IH1.
Qed.

Lemma sumAmounts_nonneg (l : list Z) :
  Forall (fun a => (0 <= a)%Z) l -> (0 <= sumAmounts l)%Z.
Proof.
  induction 1 as [|x l Hx _ IH]; [done|]. rewrite sumAmounts_cons. lia.
Qed.

Section TrimMore.

Context {T : Type} `{Tip T}.
Variable MAX_TIP_SATS : Z.

Lemma removelast_cons (x : T) (l : list T) :
  l <> [] -> removelast (x :: l) = x :: removelast l.
Proof. by destruct l. Qed.

(** A first tip above the limit, followed by tips of non-negative amounts,
    is never kept: every total that includes it exceeds the limit. *)
Lemma trim_head_exceeds (n : nat) (h : T) (l : list T) :
  (0 <= MAX_TIP_SATS)%Z -> (MAX_TIP_SATS < amount h)%Z ->
  Forall (fun t => (0 <= amount t)%Z) l -> length l < n ->
  trim MAX_TIP_SATS n (h :: l) = [].
Proof.
  intros Hmax Hh. revert l. induction n as [|n IH]; intros l Hl Hlen; [lia|].
  cbn [trim map]. rewrite sumAmounts_cons.
  pose proof (sumAmounts_nonneg (map amount l) ltac:(by apply Forall_fmap)).
  destruct (MAX_TIP_SATS <? _)%Z eqn:E; [|lia].
  destruct (decide (l = [])) as [->|Hne].
  - apply (trim_within MAX_TIP_SATS []). unfold sumAmounts. simpl. lia.
  - rewrite removelast_cons by done. apply IH.
    + destruct (removelast_prefix l) as [k Hk].
      rewrite Hk in Hl. by apply Forall_app in Hl as [? _].
    + rewrite length_removelast. destruct l; simpl in *; [done|lia].
Qed.

(** A first tip within the limit is always kept. *)
Lemma trim_head_fits (n : nat) (h : T) (l : list T) :
  (amount h <= MAX_TIP_SATS)%Z ->
  exists l', trim MAX_TIP_SATS n (h :: l) = h :: l'.
Proof.
  intros Hh. revert l. induction n as [|n IH]; intros l; [by eexists|].
  cbn [trim map]. destruct (MAX_TIP_SATS <? _)%Z eqn:E; [|by eexists].
  destruct (decide (l = [])) as [->|Hne].
  - unfold sumAmounts in E. simpl in E. lia.
  - rewrite removelast_cons by done. apply IH.
Qed.

End TrimMore.

Section LimitedMore.

Context {T : Type} `{Tip T}.

Variable MAX_TIPS_WITHDRAWABLE : Z.
Variable MAX_TIP_SATS : Z.

Implicit Types tips : list T.

(** The sorted array starts with a tip of the largest amount. *)
Lemma sorted_head_largest tips :
  tips <> [] ->
  exists (h : T) (rest : list T),
    sorted largestFirst tips = h :: rest
    /\ h ∈ tips
    /\ Forall (fun t => (amount t <= amount h)%Z) tips.
Proof.
  intros Hne. pose proof (sorted_Permutation largestFirst tips) as Hperm.
  pose proof (sorted_nonIncreasing tips) as Hsorted.
  destruct (sorted largestFirst tips) as [|h rest] eqn:Es.
  { apply Permutation_nil in Hperm. done. }
  exists h, rest. split_and!; [done| |].
  - rewrite <- Hperm. left.
  - rewrite <- Hperm. constructor; [lia|].
    by apply nonIncreasing_head.
Qed.

Lemma sliced_cons (h : T) (rest : list T) (end_ : Z) :
  sliced (h :: rest) 0 end_ = []
  \/ exists rest', sliced (h :: rest) 0 end_ = h :: rest'
                   /\ rest' `prefix_of` rest.
Proof.
  rewrite sliced_from_0.
  destruct (Z.to_nat _) as [|k]; [by left|right].
  exists (take k rest). split; [done|apply prefix_take].
Qed.

Lemma sliced_cons_pos (h : T) (rest : list T) (end_ : Z) :
  (1 <= end_)%Z ->
  exists rest', sliced (h :: rest) 0 end_ = h :: rest'.
Proof.
  intros Hend. rewrite sliced_from_0.
  destruct (Z.to_nat _) as [|k] eqn:Ek; [|by eexists].
  unfold relativeIndex in Ek. simpl length in Ek.
  destruct (end_ <? 0)%Z eqn:E; lia.
Qed.

(** One tip above the limit empties the selection, whatever the other
    tips are (no amount being negative). *)
Lemma limited_oversized tips :
  (0 <= MAX_TIP_SATS)%Z ->
  Forall (fun t => (0 <= amount t)%Z) tips ->
  Exists (fun t => (MAX_TIP_SATS < amount t)%Z) tips ->
  limited MAX_TIPS_WITHDRAWABLE MAX_TIP_SATS tips = [].
Proof.
  intros Hmax Hnonneg Hbig.
  assert (tips <> []) as Hne by (intros ->; by apply Exists_nil in Hbig).
  destruct (sorted_head_largest tips Hne) as (h & rest & Hs & Hh & Hlargest).
  assert (MAX_TIP_SATS < amount h)%Z as Hhbig.
  { apply Exists_exists in Hbig as (t & Ht & Hbig).
    rewrite Forall_forall in Hlargest. specialize (Hlargest t Ht). lia. }
  assert (Forall (fun t => (0 <= amount t)%Z) rest) as Hrest.
  { rewrite <- (sorted_Permutation largestFirst tips), Hs in Hnonneg.
    by inversion Hnonneg. }
  unfold limited. rewrite Hs.
  destruct (sliced_cons h rest MAX_TIPS_WITHDRAWABLE)
    as [->|(rest' & -> & [k Hk])]; [done|].
  apply trim_head_exceeds; [done|done| |simpl; lia].
  rewrite Hk in Hrest. by apply Forall_app in Hrest as [? _].
Qed.

(** When the largest tip is within the limit, and at least one tip may be
    withdrawn, a tip of the largest amount is selected. *)
Lemma limited_keeps_largest tips :
  (1 <= MAX_TIPS_WITHDRAWABLE)%Z -> tips <> [] ->
  Forall (fun t => (amount t <= MAX_TIP_SATS)%Z) tips ->
  exists (h : T) (rest : list T),
    limited MAX_TIPS_WITHDRAWABLE MAX_TIP_SATS tips = h :: rest
    /\ h ∈ tips
    /\ Forall (fun t => (amount t <= amount h)%Z) tips.
Proof.
  intros Hn Hne Hfit.
  destruct (sorted_head_largest tips Hne) as (h & rest & Hs & Hh & Hlargest).
  unfold limited. rewrite Hs.
  destruct (sliced_cons_pos h rest MAX_TIPS_WITHDRAWABLE Hn) as [rest' ->].
  rewrite Forall_forall in Hfit.
  destruct (trim_head_fits MAX_TIP_SATS (length (h :: rest')) h rest'
                           (Hfit h Hh)) as [l' ->].
  by exists h, l'.
Qed.

(** When all the tips are within both limits, all are selected. *)
Lemma limited_all tips :
  (Z.of_nat (length tips) <= MAX_TIPS_WITHDRAWABLE)%Z ->
  (sumAmounts (map amount tips) <= MAX_TIP_SATS)%Z ->
  limited MAX_TIPS_WITHDRAWABLE MAX_TIP_SATS tips = sorted largestFirst tips.
Proof.
  intros Hn Hsum. unfold limited.
  rewrite sliced_all by by rewrite length_sorted.
  apply trim_within.
  rewrite (sumAmounts_Permutation _ (map amount tips)); [done|].
  apply Permutation_map, sorted_Permutation.
Qed.

End LimitedMore.

(** X1: One tip above [MAX_TIP_SATS] blocks the withdrawal of every tip: with
    no negative amount, the call returns the empty list as soon as some tip
    exceeds the limit, whatever the other tips are. *)
Theorem limitTips_oversized_tip_blocks_all {T : Type} `{Tip T}
    (MAX_TIPS_WITHDRAWABLE MAX_TIP_SATS : Z)
    (fuel : nat) (r : ref) (tips : list T) (s : store T) :
  s !! r = Some tips -> (0 <= MAX_TIP_SATS)%Z -> length tips < fuel ->
  Forall (fun t => (0 <= amount t)%Z) tips ->
  Exists (fun t => (MAX_TIP_SATS < amount t)%Z) tips ->
  exists (limitedTips : ref) (s' : store T),
    limitTips MAX_TIPS_WITHDRAWABLE MAX_TIP_SATS fuel r s
      = Returned limitedTips s'
    /\ s' !! limitedTips = Some [].
Proof.
  intros Hr Hmax Hfuel Hnonneg Hbig.
  destruct (limitTips_store MAX_TIPS_WITHDRAWABLE MAX_TIP_SATS
                            fuel r tips s Hr Hmax Hfuel)
    as (s' & Hrun & Hresult & _).
  exists (length s), s'. split; [done|].
  by rewrite Hresult, limited_oversized.
Qed.

Lemma limitTips_oversized_tip_blocks_all_witness :
  exists (limitedTips : ref) (s' : store tip),
    limitTips 3 1000 4 0 [[tip200; tip2000; tip300]]
      = Returned limitedTips s'
    /\ s' !! limitedTips = Some [].
Proof.
  apply (limitTips_oversized_tip_blocks_all 3 1000 4 0
           [tip200; tip2000; tip300] [[tip200; tip2000; tip300]]).
  - reflexivity.
  - lia.
  - simpl; lia.
  - repeat constructor; vm_compute; discriminate.
  - apply Exists_cons_tl, Exists_cons_hd. vm_compute. reflexivity.
Defined.

(** X2: When every tip is within [MAX_TIP_SATS] and at least one tip may be
    withdrawn, the call returns a non-empty list that starts with a tip of
    the largest amount. *)
Theorem limitTips_keeps_largest {T : Type} `{Tip T}
    (MAX_TIPS_WITHDRAWABLE MAX_TIP_SATS : Z)
    (fuel : nat) (r : ref) (tips : list T) (s : store T) :
  s !! r = Some tips -> (0 <= MAX_TIP_SATS)%Z -> length tips < fuel ->
  (1 <= MAX_TIPS_WITHDRAWABLE)%Z -> tips <> [] ->
  Forall (fun t => (amount t <= MAX_TIP_SATS)%Z) tips ->
  exists (limitedTips : ref) (s' : store T) (h : T) (rest : list T),
    limitTips MAX_TIPS_WITHDRAWABLE MAX_TIP_SATS fuel r s
      = Returned limitedTips s'
    /\ s' !! limitedTips = Some (h :: rest)
    /\ h ∈ tips
    /\ Forall (fun t => (amount t <= amount h)%Z) tips.
Proof.
  intros Hr Hmax Hfuel Hn Hne Hfit.
  destruct (limitTips_store MAX_TIPS_WITHDRAWABLE MAX_TIP_SATS
                            fuel r tips s Hr Hmax Hfuel)
    as (s' & Hrun & Hresult & _).
  destruct (limited_keeps_largest MAX_TIPS_WITHDRAWABLE MAX_TIP_SATS
                                  tips Hn Hne Hfit)
    as (h & rest & Hl & Hh & Hlargest).
  exists (length s), s', h, rest. split_and!; try done.
  by rewrite Hresult, Hl.
Qed.

Lemma limitTips_keeps_largest_witness :
  exists (limitedTips : ref) (s' : store tip) (h : tip) (rest : list tip),
    limitTips 3 1000 5 0 [fourTips] = Returned limitedTips s'
    /\ s' !! limitedTips = Some (h :: rest)
    /\ h ∈ fourTips
    /\ Forall (fun t => (amount t <= amount h)%Z) fourTips.
Proof.
  apply (limitTips_keeps_largest 3 1000 5 0 fourTips [fourTips]).
  - reflexivity.
  - lia.
  - simpl; lia.
  - lia.
  - discriminate.
  - repeat constructor; vm_compute; discriminate.
Defined.



Lemma limitTips_diverges_witness :
  limitTips 3 (-1) 100 0 [[tip200; tip300]] = OutOfFuel.
Proof.
  apply (limitTips_diverges 3 (-1) 100 0 [tip200; tip300]
                            [[tip200; tip300]]);
    [reflexivity | lia |].
  repeat (constructor; [vm_compute; discriminate|]). constructor.
Defined.

(** ** calculateFee *)

Section FeeBounds.

Variable FEE_PERCENT : Q.
Variable MINIMUM_FEE_SATS : Z.

Local Open Scope Q_scope.

Lemma feeReserveMet_le (amount fee : Z) :
  feeReserveMet FEE_PERCENT amount fee ->
  inject_Z (amount + fee) * feeFactor FEE_PERCENT <= inject_Z fee.
Proof.
  unfold feeReserveMet, feeFactor. intros Hmet.
  apply (Qle_trans _ (inject_Z (Qceiling
                        (inject_Z (amount + fee) * FEE_PERCENT / 100)))).
  - unfold Qdiv. rewrite Qmult_assoc. apply Qle_ceiling.
  - by rewrite <- Zle_Qle.
Qed.

Lemma ceil_le_Z (x : Q) (z : Z) : x <= inject_Z z -> (Qceiling x <= z)%Z.
Proof.
  intros Hx. rewrite <- (Qceiling_Z z). by apply Qceiling_resp_le.
Qed.

End FeeBounds.



Lemma calculateFee_reserve_met_below_10000_witness :
  feeReserveMet 1 9999 (calculateFee 1 2 9999).
Proof. apply (calculateFee_reserve_met_below_10000 9999). lia. Defined.

(** X8: at one percent, the fee JavaScript computes in double precision is
    the integer of the exact computation, for every minimum fee and amount
    below [2 ^ 52] sats: no product is rounded across an integer. *)
Theorem calculateFee64_computes_calculateFee (MINIMUM_FEE_SATS amount : Z) :
  (0 <= MINIMUM_FEE_SATS < 2 ^ 52)%Z -> (0 <= amount < 2 ^ 52)%Z ->
  Binary64.toZ (Binary64.calculateFee64 (Binary64.ofZ 1)
                                        (Binary64.ofZ MINIMUM_FEE_SATS)
                                        (Binary64.ofZ amount))
  = Some (calculateFee 1 MINIMUM_FEE_SATS amount).
Proof.
  intros HM Ha. exact (proj2 (calculateFee64_exact _ _ HM Ha)).
Qed.

Lemma calculateFee64_computes_calculateFee_witness :
  Binary64.toZ (Binary64.calculateFee64 (Binary64.ofZ 1) (Binary64.ofZ 2)
                                        (Binary64.ofZ 4503599627370495))
  = Some (calculateFee 1 2 4503599627370495).
Proof.
  apply (calculateFee64_computes_calculateFee 2 4503599627370495); lia.
Defined.

(** ** The utilities on strings *)

Section HashFacts.

Import Utils.
Local Open Scope Z_scope.

Lemma ToInt32_range (z : Z) : - 2 ^ 31 <= ToInt32 z < 2 ^ 31.
Proof.
  unfold ToInt32. pose proof (Z.mod_pos_bound (z + 2 ^ 31) (2 ^ 32)). lia.
Qed.

Lemma ToInt32_small (z : Z) : - 2 ^ 31 <= z < 2 ^ 31 -> ToInt32 z = z.
Proof. intros Hz. unfold ToInt32. rewrite Z.mod_small; lia. Qed.

(** [ToInt32 z] differs from [z] by a multiple of [2 ^ 32]. *)
Lemma ToInt32_wraps (z : Z) : exists k : Z, ToInt32 z = z + k * 2 ^ 32.
Proof.
  exists (- ((z + 2 ^ 31) / 2 ^ 32)). unfold ToInt32.
  pose proof (Z.div_mod (z + 2 ^ 31) (2 ^ 32)). lia.
Qed.

Lemma ToInt32_add_multiple (z k : Z) : ToInt32 (z + k * 2 ^ 32) = ToInt32 z.
Proof.
  unfold ToInt32.
  replace (z + k * 2 ^ 32 + 2 ^ 31) with (z + 2 ^ 31 + k * 2 ^ 32) by lia.
  by rewrite Z.mod_add.
Qed.

(** One round of the reduction: [((a << 5) - a + c) | 0] is [31 * a + c]
    in 32 bits. *)
Lemma hash_step (a c : Z) :
  bitwiseOr (shiftLeft a 5 - a + c) 0 = ToInt32 (31 * a + c).
Proof.
  unfold bitwiseOr. change (ToInt32 0) with 0. rewrite Z.lor_0_r.
  unfold shiftLeft. change (2 ^ (5 mod 32)) with 32.
  destruct (ToInt32_wraps a) as [k1 ->].
  destruct (ToInt32_wraps ((a + k1 * 2 ^ 32) * 32)) as [k2 ->].
  replace ((a + k1 * 2 ^ 32) * 32 + k2 * 2 ^ 32 - a + c)
    with (31 * a + c + (32 * k1 + k2) * 2 ^ 32) by lia.
  apply ToInt32_add_multiple.
Qed.

(** A map [h] that commutes with the steps of two folds commutes with the
    folds. *)
Lemma fold_left_commute {A B C : Type} (f : A -> C -> A) (g : B -> C -> B)
    (h : B -> A) (s : list C) (b : B) :
  (forall b c, f (h b) c = h (g b c)) ->
  fold_left f s (h b) = h (fold_left g s b).
Proof.
  intros Hstep. revert b.
  induction s as [|c s IH]; intros b; cbn [fold_left]; [done|].
  by rewrite Hstep, IH.
Qed.

Lemma hash_step_ToInt32 (b c : Z) :
  bitwiseOr (shiftLeft (ToInt32 b) 5 - ToInt32 b + c) 0
  = ToInt32 (31 * b + c).
Proof.
  rewrite hash_step.
  destruct (ToInt32_wraps b) as [k ->].
  replace (31 * (b + k * 2 ^ 32) + c)
    with (31 * b + c + (31 * k) * 2 ^ 32) by lia.
  apply ToInt32_add_multiple.
Qed.

Lemma hash_fold (s : list N) (b : Z) :
  fold_left (fun a c => bitwiseOr (shiftLeft a 5 - a + Z.of_N c) 0) s
            (ToInt32 b)
  = ToInt32 (fold_left (fun a c => 31 * a + Z.of_N c) s b).
Proof.
  apply (fold_left_commute
           (fun a c => bitwiseOr (shiftLeft a 5 - a + Z.of_N c) 0)
           (fun a c => 31 * a + Z.of_N c) ToInt32).
  intros b' c. apply hash_step_ToInt32.
Qed.

Lemma polynomial_fold (s : list N) (b : Z) :
  fold_left (fun a c => 31 * a + Z.of_N c) s b
  = b * 31 ^ Z.of_nat (length s) + polynomialHash s.
Proof.
  unfold polynomialHash. revert b.
  induction s as [|c s IH]; intros b.
  - simpl. lia.
  - cbn [fold_left]. rewrite (IH (31 * b + Z.of_N c)), (IH (31 * 0 + Z.of_N c)).
    cbn [length]. rewrite (Nat2Z.inj_succ (length s)), Z.pow_succ_r by lia.
    lia.
Qed.

Lemma polynomialHash_app (s t : list N) :
  polynomialHash (s ++ t)
  = polynomialHash s * 31 ^ Z.of_nat (length t) + polynomialHash t.
Proof.
  unfold polynomialHash at 1. rewrite fold_left_app.
  apply polynomial_fold.
Qed.

Lemma getHashCode_ToInt32 (s : list N) :
  getHashCode s = ToInt32 (polynomialHash s).
Proof. exact (hash_fold s 0). Qed.

End HashFacts.

(** X9: [getHashCode] is the hash code Java gives the string: the polynomial
    in 31 of its code units, reduced to a signed 32-bit integer. *)
Theorem getHashCode_polynomial (s : list N) :
  Utils.getHashCode s = Utils.ToInt32 (Utils.polynomialHash s)
  /\ (- 2 ^ 31 <= Utils.getHashCode s < 2 ^ 31)%Z.
Proof.
  rewrite getHashCode_ToInt32. split; [done|]. apply ToInt32_range.
Qed.

(** X10: The hash of a concatenation is computed from the hashes of the parts:
    [hash (s ++ t) = hash s * 31 ^ length t + hash t] in 32 bits. *)
Theorem getHashCode_app (s t : list N) :
  Utils.getHashCode (s ++ t)
  = Utils.ToInt32 (Utils.getHashCode s * 31 ^ Z.of_nat (length t)
                   + Utils.getHashCode t)%Z.
Proof.
  rewrite !getHashCode_ToInt32.
  rewrite polynomialHash_app.
  destruct (ToInt32_wraps (Utils.polynomialHash s)) as [k1 ->].
  destruct (ToInt32_wraps (Utils.polynomialHash t)) as [k2 ->].
  symmetry.
  replace ((Utils.polynomialHash s + k1 * 2 ^ 32) * 31 ^ Z.of_nat (length t)
           + (Utils.polynomialHash t + k2 * 2 ^ 32))%Z
    with (Utils.polynomialHash s * 31 ^ Z.of_nat (length t)
          + Utils.polynomialHash t
          + (k1 * 31 ^ Z.of_nat (length t) + k2) * 2 ^ 32)%Z by lia.
  apply ToInt32_add_multiple.
Qed.

Section StringFacts.

Import Utils.
Implicit Types s search pre post : list N.

Lemma String_startsWith_prefix s search :
  String_startsWith s search = true <-> search `prefix_of` s.
Proof.
  revert s. induction search as [|c search IH]; intros s; simpl.
  - split; [intros _; apply prefix_nil|done].
  - destruct s as [|d s].
    + split; [done|]. intros Hp. by apply prefix_nil_inv in Hp.
    + rewrite andb_true_iff, N.eqb_eq, IH. split.
      * intros [-> Hp]. by apply prefix_cons.
      * intros Hp. split.
        -- by apply prefix_cons_inv_1 in Hp.
        -- by apply prefix_cons_inv_2 in Hp.
Qed.

Lemma occursIn_cons search (c : N) s :
  occursIn search (c :: s) ->
  search `prefix_of` (c :: s) \/ occursIn search s.
Proof.
  intros ([|d pre] & post & Hs).
  - left. by exists post.
  - right. injection Hs as -> ->. by exists pre, post.
Qed.

(** [indexOf] returns -1 exactly when [search] does not occur, and
    otherwise the length of what comes before an occurrence. *)
Lemma indexOfFrom_cases s search (i : Z) :
  (indexOfFrom s search i = (-1)%Z /\ ~ occursIn search s)
  \/ (exists pre post,
         s = pre ++ search ++ post
         /\ indexOfFrom s search i = (i + Z.of_nat (length pre))%Z).
Proof.
  revert i. induction s as [|c s IH]; intros i; cbn [indexOfFrom].
  - destruct (String_startsWith [] search) eqn:E.
    + right. apply String_startsWith_prefix in E as [post Hp].
      exists [], post. split; [done|]. simpl. lia.
    + left. split; [done|]. intros ([|? ?] & post & Hs); [|done].
      assert (String_startsWith [] search = true) as Ht
          by (apply String_startsWith_prefix; by exists post).
      congruence.
  - destruct (String_startsWith (c :: s) search) eqn:E.
    + right. apply String_startsWith_prefix in E as [post Hp].
      exists [], post. split; [done|]. simpl. lia.
    + destruct (IH (i + 1)%Z) as [[Hi Hno]|(pre & post & Hs & Hi)].
      * left. split; [done|]. intros Hocc.
        apply occursIn_cons in Hocc as [Hp|Hocc]; [|done].
        apply String_startsWith_prefix in Hp. congruence.
      * right. exists (c :: pre), post. split; [by rewrite Hs|].
        rewrite Hi. simpl length. lia.
Qed.

(** Code units other than the first of [search] are skipped. *)
Lemma indexOfFrom_skip (c : N) search pre s (i : Z) :
  Forall (fun d => d <> c) pre ->
  indexOfFrom (pre ++ s) (c :: search) i
  = indexOfFrom s (c :: search) (i + Z.of_nat (length pre))%Z.
Proof.
  intros Hpre. revert i. induction Hpre as [|d pre Hd _ IH]; intros i.
  - simpl. f_equal. lia.
  - cbn [app indexOfFrom String_startsWith].
    replace (c =? d)%N with false by (symmetry; apply N.eqb_neq; congruence).
    cbn [andb]. rewrite IH. f_equal. simpl length. lia.
Qed.

Lemma indexOfFrom_here search post (i : Z) :
  indexOfFrom (search ++ post) search i = i.
Proof.
  assert (String_startsWith (search ++ post) search = true) as Hs
      by (apply String_startsWith_prefix; by exists post).
  destruct (search ++ post); simpl; by rewrite Hs.
Qed.

Lemma String_substringFrom_drop s (start : Z) :
  (0 <= start <= Z.of_nat (length s))%Z ->
  String_substringFrom s start = drop (Z.to_nat start) s.
Proof.
  intros Hstart. unfold String_substringFrom, String_substring, clampIndex.
  match goal with
  | |- take (Z.to_nat ?a) (drop (Z.to_nat ?b) _) = _ =>
      replace b with start by lia;
      replace a with (Z.of_nat (length s) - start)%Z by lia
  end.
  apply take_ge. rewrite length_drop. lia.
Qed.

Lemma String_substring_take s (end_ : Z) :
  String_substring s 0 end_ = take (Z.to_nat end_) s.
Proof.
  unfold String_substring, clampIndex.
  match goal with
  | |- take (Z.to_nat ?a) (drop (Z.to_nat ?b) _) = _ =>
      replace b with 0%Z by lia;
      replace a with (Z.min (Z.max end_ 0) (Z.of_nat (length s))) by lia
  end.
  simpl drop.
  destruct (Z.le_gt_cases end_ (Z.of_nat (length s))).
  - f_equal. lia.
  - rewrite (take_ge s (Z.to_nat end_)) by lia. apply take_ge. lia.
Qed.

End StringFacts.

(** *** truncate *)

(** X15: A text of at most [length_] code units is returned as it is; a longer
    one is cut to its first [length_] code units and the suffix is added,
    which makes [length_] plus the length of the suffix code units. *)
Theorem truncate_cut (text : list N) (length_ : Z) (suffix : option (list N)) :
  (0 <= length_)%Z ->
  ((Z.of_nat (length text) <= length_)%Z ->
   Utils.truncate text length_ suffix = text)
  /\ ((length_ < Z.of_nat (length text))%Z ->
      Utils.truncate text length_ suffix
      = take (Z.to_nat length_) text ++ default (Utils.lit "...") suffix
      /\ Z.of_nat (length (Utils.truncate text length_ suffix))
         = (length_
            + Z.of_nat (length (default (Utils.lit "...") suffix)))%Z).
Proof.
  intros Hlen. unfold Utils.truncate. split; intros Htext.
  - by replace (length_ <? Z.of_nat (length text))%Z with false
      by (symmetry; apply Z.ltb_ge; lia).
  - replace (length_ <? Z.of_nat (length text))%Z with true
      by (symmetry; apply Z.ltb_lt; lia).
    rewrite String_substring_take. split; [done|].
    rewrite length_app, length_take. lia.
Qed.

Lemma truncate_cut_witness :
  ((Z.of_nat (length (Utils.lit "abcd")) <= 3)%Z ->
   Utils.truncate (Utils.lit "abcd") 3 None = Utils.lit "abcd")
  /\ ((3 < Z.of_nat (length (Utils.lit "abcd")))%Z ->
      Utils.truncate (Utils.lit "abcd") 3 None
      = take (Z.to_nat 3) (Utils.lit "abcd")
        ++ default (Utils.lit "...") None
      /\ Z.of_nat (length (Utils.truncate (Utils.lit "abcd") 3 None))
         = (3 + Z.of_nat (length (default (Utils.lit "...") None)))%Z).
Proof. apply (truncate_cut (Utils.lit "abcd") 3 None). lia. Defined.

(** X16: Truncating twice is truncating once, whatever the length asked for
    (a negative one included) and whatever the suffix. *)
Theorem truncate_idempotent (text : list N) (length_ : Z)
    (suffix : option (list N)) :
  Utils.truncate (Utils.truncate text length_ suffix) length_ suffix
  = Utils.truncate text length_ suffix.
Proof.
  set (sfx := default (Utils.lit "...") suffix).
  destruct (Z.ltb_spec length_ (Z.of_nat (length text))) as [Hlt|Hge].
  - assert (Utils.truncate text length_ suffix
            = take (Z.to_nat length_) text ++ sfx) as Ht.
    { unfold Utils.truncate.
      replace (length_ <? Z.of_nat (length text))%Z with true
        by (symmetry; apply Z.ltb_lt; lia).
      by rewrite String_substring_take. }
    rewrite Ht. unfold Utils.truncate. fold sfx.
    destruct (Z.ltb_spec length_
                (Z.of_nat (length (take (Z.to_nat length_) text ++ sfx))))
      as [Hlt'|Hge']; [|done].
    f_equal. rewrite String_substring_take.
    rewrite take_app_le by (rewrite length_take; lia).
    by rewrite take_take, Nat.min_id.
  - assert (Utils.truncate text length_ suffix = text) as Ht.
    { unfold Utils.truncate.
      by replace (length_ <? Z.of_nat (length text))%Z with false
        by (symmetry; apply Z.ltb_ge; lia). }
    by rewrite !Ht.
Qed.

(** *** getRedeemUrl *)

Section RedeemUrl.

Import Utils.

Lemma lit_slashes : lit "//" = [47; 47]%N.
Proof. reflexivity. Qed.

Lemma getRedeemUrl_unfold (env : Env) (appUrl : list N) :
  getAppUrl env = Some appUrl ->
  getRedeemUrl env (Some true)
  = String_substringFrom (appUrl ++ lit "/tip")
      (String_indexOf (appUrl ++ lit "/tip") (lit "//") + 2)
  /\ getRedeemUrl env None = appUrl ++ lit "/tip".
Proof. intros Henv. unfold getRedeemUrl. by rewrite Henv. Qed.

End RedeemUrl.

(** X17: With [excludeHttp], an application URL [scheme ++ "//" ++ rest] whose
    scheme has no slash gives [rest ++ "/tip"]; without it, the whole URL
    and ["/tip"]. *)
Theorem getRedeemUrl_excludes_scheme (env : Utils.Env)
    (scheme rest : list N) :
  Utils.getAppUrl env = Some (scheme ++ Utils.lit "//" ++ rest) ->
  Forall (fun c => c <> 47%N) scheme ->
  Utils.getRedeemUrl env (Some true) = rest ++ Utils.lit "/tip"
  /\ Utils.getRedeemUrl env None
     = scheme ++ Utils.lit "//" ++ rest ++ Utils.lit "/tip".
Proof.
  intros Henv Hscheme.
  destruct (getRedeemUrl_unfold env _ Henv) as [-> ->].
  split; [|by rewrite <- !app_assoc].
  unfold Utils.String_indexOf.
  rewrite <- !app_assoc, lit_slashes.
  rewrite (indexOfFrom_skip 47 [47%N] scheme) by done.
  rewrite (indexOfFrom_here [47; 47]%N).
  rewrite String_substringFrom_drop
    by (rewrite !length_app; simpl length; lia).
  replace (Z.to_nat (0 + Z.of_nat (length scheme) + 2))
    with (length scheme + 2) by lia.
  by rewrite drop_app_add.
Qed.

Lemma getRedeemUrl_excludes_scheme_witness :
  Utils.getRedeemUrl {| Utils.windowOrigin := None;
                        Utils.APP_URL := Some (Utils.lit "https://a.b") |}
                     (Some true)
  = Utils.lit "a.b" ++ Utils.lit "/tip"
  /\ Utils.getRedeemUrl {| Utils.windowOrigin := None;
                           Utils.APP_URL := Some (Utils.lit "https://a.b") |}
                        None
     = Utils.lit "https:" ++ Utils.lit "//" ++ Utils.lit "a.b"
       ++ Utils.lit "/tip".
Proof.
  apply (getRedeemUrl_excludes_scheme
           {| Utils.windowOrigin := None;
              Utils.APP_URL := Some (Utils.lit "https://a.b") |}
           (Utils.lit "https:") (Utils.lit "a.b")).
  - reflexivity.
  - repeat constructor; discriminate.
Defined.

(** X18: With [excludeHttp], an application URL without any slash loses its
    first code unit: [indexOf] returns -1, and the substring starts at 1. *)
Theorem getRedeemUrl_without_scheme (env : Utils.Env) (appUrl : list N) :
  Utils.getAppUrl env = Some appUrl ->
  Forall (fun c => c <> 47%N) appUrl ->
  Utils.getRedeemUrl env (Some true) = drop 1 (appUrl ++ Utils.lit "/tip").
Proof.
  intros Henv Hurl.
  destruct (getRedeemUrl_unfold env _ Henv) as [-> _].
  unfold Utils.String_indexOf. rewrite lit_slashes.
  rewrite (indexOfFrom_skip 47 [47%N] appUrl) by done.
  change (Utils.indexOfFrom (Utils.lit "/tip") [47; 47]%N
            (0 + Z.of_nat (length appUrl)))
    with (-1)%Z.
  rewrite String_substringFrom_drop; [done|].
  rewrite length_app. simpl length. lia.
Qed.

Lemma getRedeemUrl_without_scheme_witness :
  Utils.getRedeemUrl {| Utils.windowOrigin := None;
                        Utils.APP_URL := Some (Utils.lit "localhost:3000") |}
                     (Some true)
  = drop 1 (Utils.lit "localhost:3000" ++ Utils.lit "/tip").
Proof.
  apply (getRedeemUrl_without_scheme
           {| Utils.windowOrigin := None;
              Utils.APP_URL := Some (Utils.lit "localhost:3000") |}
           (Utils.lit "localhost:3000")).
  - reflexivity.
  - repeat constructor; discriminate.
Defined.

(** *** isValidNostrConnectUrl *)

(** X19: A URL is accepted exactly when it starts with one of the two schemes
    and ["&secret="] occurs in it: the test [indexOf > 0] rejects nothing
    that [indexOf >= 0] would accept, since a URL that starts with a scheme
    does not start with ["&secret="]. *)
Theorem isValidNostrConnectUrl_iff (url : list N) :
  Utils.isValidNostrConnectUrl url = true
  <-> (Utils.lit "nostrwalletconnect://" `prefix_of` url
       \/ Utils.lit "nostr+walletconnect://" `prefix_of` url)
      /\ Utils.occursIn (Utils.lit "&secret=") url.
Proof.
  unfold Utils.isValidNostrConnectUrl.
  rewrite andb_true_iff, orb_true_iff, !String_startsWith_prefix, Z.ltb_lt.
  unfold Utils.String_indexOf.
  destruct (indexOfFrom_cases url (Utils.lit "&secret=") 0)
    as [[-> Hno]|(pre & post & Hurl & ->)].
  - split; [lia|]. intros [_ Hocc]. done.
  - split.
    + intros [Hp _]. split; [done|]. by exists pre, post.
    + intros [Hp _]. split; [done|].
      destruct pre as [|c pre]; [exfalso|simpl length; lia].
      rewrite Hurl in Hp. destruct Hp as [[k Hk]|[k Hk]]; discriminate Hk.
Qed.

(** *** nth *)

Section NthFacts.

Import Utils.
Local Open Scope Z_scope.

Lemma nth_mod_100 (n : Z) : 0 <= n -> nth n = nth (n mod 100).
Proof.
  intros Hn. unfold nth.
  pose proof (Z.mod_pos_bound n 100 ltac:(done)).
  rewrite (Z.rem_mod_nonneg (n + 90) 100) by lia.
  rewrite (Z.rem_mod_nonneg (n mod 100 + 90) 100) by lia.
  by rewrite Z.add_mod_idemp_l by done.
Qed.

Lemma ordinalSuffix_mod_100 (n : Z) :
  ordinalSuffix n = ordinalSuffix (n mod 100).
Proof.
  unfold ordinalSuffix. rewrite Z.mod_mod by done.
  replace ((n mod 100) mod 10) with (n mod 10); [done|].
  Z.div_mod_to_equations. lia.
Qed.

Lemma nth_below_100 (r : nat) :
  (r < 100)%nat -> nth (Z.of_nat r) = ordinalSuffix (Z.of_nat r).
Proof.
  intros Hr.
  assert (forallb (fun k => bool_decide (nth (Z.of_nat k)
                                         = ordinalSuffix (Z.of_nat k)))
                  (seq 0 100) = true) as Hall by (by vm_compute).
  rewrite forallb_forall in Hall.
  eapply bool_decide_eq_true_1, Hall, in_seq. lia.
Qed.

End NthFacts.



(** X14: On every integer, negative ones included, [nth] returns one of the
    four suffixes: an index outside the array gives "th". *)
Theorem nth_suffixes (n : Z) :
  Utils.nth n ∈ [Utils.lit "st"; Utils.lit "nd"; Utils.lit "rd";
                 Utils.lit "th"].
Proof.
  unfold Utils.nth, Utils.Array_at.
  destruct (_ <? 0)%Z; [|destruct (Z.to_nat _) as [|[|[|k]]]];
    apply list_elem_of_In; simpl;
    repeat first [left; reflexivity | right].
Qed.

(** *** getFallbackAvatarId, getAvatarUrl, getUserAvatarUrl *)

(** X11: The fallback avatar id of a user is the numeral of the remainder of
    the hash of the user's id by 10000, as JavaScript takes it: an integer
    strictly between -10000 and 10000 that has the sign of the hash, so
    that the id starts with a minus sign for a negative hash that is no
    multiple of 10000. *)
Theorem getFallbackAvatarId_range (u : Utils.User) :
  exists k : Z,
    Utils.getFallbackAvatarId (Some u) = Some (Utils.Number_toString k)
    /\ (-10000 < k < 10000)%Z
    /\ ((Utils.getHashCode (Utils.id u) - k) mod 10000 = 0)%Z
    /\ ((k < 0)%Z
        <-> (Utils.getHashCode (Utils.id u) < 0)%Z
            /\ (Utils.getHashCode (Utils.id u) mod 10000 <> 0)%Z).
Proof.
  exists (Z.rem (Utils.getHashCode (Utils.id u)) 10000).
  set (h := Utils.getHashCode (Utils.id u)).
  split; [done|].
  split_and!; [| | |split]; Z.to_euclidean_division_equations; lia.
Qed.

(** X12: The avatar URL of a user: the user's own when there is a non-empty
    one; the generated avatar of the fallback id when the user has none
    ([null] or empty); the generated avatar "1" when there is no user.  It
    is never the empty string. *)
Theorem getUserAvatarUrl_cases (user : option Utils.User) :
  (user = None ->
   Utils.getUserAvatarUrl user
   = Utils.lit "https://avatars.dicebear.com/api/miniavs/1.svg")
  /\ (forall u url,
         user = Some u -> Utils.avatarURL u = Some url -> url <> [] ->
         Utils.getUserAvatarUrl user = url)
  /\ (forall u,
         user = Some u ->
         Utils.avatarURL u = None \/ Utils.avatarURL u = Some [] ->
         Utils.getUserAvatarUrl user
         = Utils.lit "https://avatars.dicebear.com/api/miniavs/"
           ++ Utils.Number_toString
                (Z.rem (Utils.getHashCode (Utils.id u)) 10000)
           ++ Utils.lit ".svg")
  /\ Utils.getUserAvatarUrl user <> [].
Proof.
  split_and!.
  - by intros ->.
  - intros u url -> Hurl Hne. unfold Utils.getUserAvatarUrl. simpl.
    rewrite Hurl. by destruct url.
  - intros u -> [Hurl|Hurl]; unfold Utils.getUserAvatarUrl; simpl;
      by rewrite Hurl.
  - unfold Utils.getUserAvatarUrl, Utils.getAvatarUrl.
    by destruct (user ≫= Utils.avatarURL) as [[|c url]|].
Qed.

(** *** generatePassphrase, getUpdatedPassphrase *)

Section PassphraseFacts.

Import Utils.

Variable bip0039 : list (list N).
Variable random : nat -> Q.

Lemma randomIndex_bounds (i L : nat) :
  (0 <= random i)%Q -> (random i < 1)%Q -> 0 < L ->
  (0 <= Qfloor (random i * inject_Z (Z.of_nat L)) < Z.of_nat L)%Z.
Proof.
  intros Hr0 Hr1 HL.
  assert (0 < inject_Z (Z.of_nat L))%Q as HLq
      by (rewrite <- (Zlt_Qlt 0); lia).
  split.
  - change 0%Z with (Qfloor 0). apply Qfloor_resp_le.
    apply Qmult_le_0_compat; [done|by apply Qlt_le_weak].
  - rewrite Zlt_Qlt. eapply Qle_lt_trans; [apply Qfloor_le|].
    rewrite <- (Qmult_1_l (inject_Z (Z.of_nat L))) at 2.
    by apply Qmult_lt_compat_r.
Qed.

Lemma randomIndex_empty (i : nat) :
  Qfloor (random i * inject_Z (Z.of_nat 0)) = 0%Z.
Proof.
  rewrite (Qfloor_comp _ 0); [done|]. simpl. apply Qmult_0_r.
Qed.

(** The words of the loop: words drawn from those available, and nothing
    once none is left. *)
Lemma passphraseLoop_words (n i : nat) (words : list (option (list N)))
    (availableWords : list (list N)) :
  (forall j, (0 <= random j)%Q /\ (random j < 1)%Q) ->
  exists chosen : list (list N),
    passphraseLoop random n i words availableWords
    = words ++ (Some <$> chosen)
      ++ replicate (n - length availableWords) None
    /\ length chosen = min n (length availableWords)
    /\ chosen ⊆+ availableWords.
Proof.
  intros Hrandom. revert i words availableWords.
  induction n as [|n IH]; intros i words availableWords.
  - exists []. simpl. split_and!; [by rewrite app_nil_r|done|].
    apply submseteq_nil_l.
  - cbn [passphraseLoop]. unfold Array_splice1.
    destruct (decide (availableWords = [])) as [->|Hne].
    + rewrite randomIndex_empty. simpl.
      destruct (IH (S i) (words ++ [None]) []) as (chosen & -> & Hlen & _).
      rewrite Nat.min_0_r in Hlen.
      destruct chosen; [|done]. exists []. split_and!; [|done..].
      simpl. rewrite <- app_assoc. simpl. by rewrite Nat.sub_0_r.
    + destruct (Hrandom i) as [Hr0 Hr1].
      assert (0 < length availableWords) as HL
          by (destruct availableWords; [done|simpl; lia]).
      pose proof (randomIndex_bounds i _ Hr0 Hr1 HL) as Hidx.
      set (idx := Qfloor _) in *.
      unfold relativeIndex.
      replace (idx <? 0)%Z with false by (symmetry; apply Z.ltb_ge; lia).
      rewrite Z.min_l by lia.
      destruct (lookup_lt_is_Some_2 availableWords (Z.to_nat idx)
                                    ltac:(lia)) as [w Hw].
      rewrite Hw.
      destruct (IH (S i) (words ++ [Some w])
                   (delete (Z.to_nat idx) availableWords))
        as (chosen & -> & Hlen & Hsub).
      rewrite length_delete in * by done.
      exists (w :: chosen). split_and!.
      * replace (S n - length availableWords)
          with (n - (length availableWords - 1)) by lia.
        by rewrite <- app_assoc.
      * cbn [length]. lia.
      * apply submseteq_cons_l. eexists. split; [|done].
        by apply delete_Permutation.
Qed.

Lemma length_passphraseLoop (n i : nat) (words : list (option (list N)))
    (availableWords : list (list N)) :
  length (passphraseLoop random n i words availableWords)
  = length words + n.
Proof.
  revert i words availableWords.
  induction n as [|n IH]; intros i words availableWords; simpl; [lia|].
  rewrite IH, length_app. simpl. lia.
Qed.

(** Every word of the loop comes from the words available. *)
Lemma passphraseLoop_Forall (P : list N -> Prop) (n i : nat)
    (words : list (option (list N))) (availableWords : list (list N)) :
  P [] ->
  Forall (fun w => P (default [] w)) words -> Forall P availableWords ->
  Forall (fun w => P (default [] w))
         (passphraseLoop random n i words availableWords).
Proof.
  intros Hnil. revert i words availableWords.
  induction n as [|n IH]; intros i words availableWords Hwords Havail;
    [done|].
  cbn [passphraseLoop]. unfold Array_splice1. apply IH.
  - apply Forall_app. split; [done|]. constructor; [|done].
    destruct (availableWords !! _) as [w|] eqn:Hw; [|done]. simpl.
    rewrite Forall_forall in Havail.
    by eapply Havail, list_elem_of_lookup_2.
  - by apply Forall_delete.
Qed.

End PassphraseFacts.

Section JoinSplit.

Import Utils.

Variable sep : N.

Lemma Array_join_fold (arr : list (option (list N))) (acc : list N) :
  fold_left (fun acc y => acc ++ [sep] ++ default [] y) arr acc
  = acc ++ concat ((fun y => sep :: default [] y) <$> arr).
Proof.
  revert acc. induction arr as [|y arr IH]; intros acc; simpl.
  - by rewrite app_nil_r.
  - rewrite IH. by rewrite <- !app_assoc.
Qed.

Lemma String_split_word (w : list N) :
  Forall (fun c => c <> sep) w -> String_split w sep = [w].
Proof.
  induction 1 as [|c w Hc _ IH]; [done|]. simpl.
  replace (c =? sep)%N with false by (symmetry; by apply N.eqb_neq).
  by rewrite IH.
Qed.

Lemma String_split_app (w s : list N) :
  Forall (fun c => c <> sep) w ->
  String_split (w ++ sep :: s) sep = w :: String_split s sep.
Proof.
  induction 1 as [|c w Hc _ IH]; simpl.
  - by rewrite N.eqb_refl.
  - replace (c =? sep)%N with false by (symmetry; by apply N.eqb_neq).
    by rewrite IH.
Qed.

(** Splitting what was joined gives the words back, when no word contains
    the separator. *)
Lemma String_split_join (x : option (list N))
    (arr : list (option (list N))) :
  Forall (fun w => Forall (fun c => c <> sep) (default [] w)) (x :: arr) ->
  String_split (Array_join (x :: arr) [sep]) sep
  = default [] <$> (x :: arr).
Proof.
  unfold Array_join. rewrite Array_join_fold.
  revert x. induction arr as [|y arr IH]; intros x Hall.
  - simpl. rewrite app_nil_r. apply String_split_word. by inversion Hall.
  - inversion Hall as [|? ? Hx Hrest]; subst.
    rewrite !fmap_cons. cbn [concat app].
    rewrite String_split_app by done.
    rewrite (IH y Hrest). by rewrite fmap_cons.
Qed.

End JoinSplit.

(** X20: [generatePassphrase] draws its words without replacement: the words of
    the passphrase are as many words of the list as asked for, no word
    taken more often than the list has it, so that all are different when
    the words of the list are.  Past the end of the list the words are
    [undefined], which [join] writes as empty words. *)
Theorem generatePassphrase_without_replacement
    (bip0039 : list (list N)) (random : nat -> Q) (length_ : Z) :
  (forall j, (0 <= random j)%Q /\ (random j < 1)%Q) ->
  exists chosen : list (list N),
    Utils.generatePassphrase bip0039 random length_
    = Utils.Array_join
        ((Some <$> chosen)
         ++ replicate (Z.to_nat length_ - length bip0039) None)
        (Utils.lit " ")
    /\ length chosen = min (Z.to_nat length_) (length bip0039)
    /\ chosen ⊆+ bip0039
    /\ (NoDup bip0039 -> NoDup chosen).
Proof.
  intros Hrandom. unfold Utils.generatePassphrase.
  destruct (passphraseLoop_words random (Z.to_nat length_) 0 [] bip0039
                                 Hrandom)
    as (chosen & -> & Hlen & Hsub).
  exists chosen. split_and!; [done..|].
  intros Hnodup. apply submseteq_Permutation in Hsub as [k Hk].
  rewrite Hk in Hnodup. by apply NoDup_app in Hnodup as [? _].
Qed.

Lemma generatePassphrase_without_replacement_witness :
  exists chosen : list (list N),
    Utils.generatePassphrase
      [Utils.lit "abandon"; Utils.lit "ability"; Utils.lit "able"]
      (fun _ => 1 # 2) 2
    = Utils.Array_join
        ((Some <$> chosen)
         ++ replicate
              (Z.to_nat 2
               - length [Utils.lit "abandon"; Utils.lit "ability";
                         Utils.lit "able"])
              None)
        (Utils.lit " ")
    /\ length chosen
       = min (Z.to_nat 2)
             (length [Utils.lit "abandon"; Utils.lit "ability";
                      Utils.lit "able"])
    /\ chosen ⊆+ [Utils.lit "abandon"; Utils.lit "ability";
                  Utils.lit "able"]
    /\ (NoDup [Utils.lit "abandon"; Utils.lit "ability"; Utils.lit "able"]
        -> NoDup chosen).
Proof.
  apply (generatePassphrase_without_replacement
           [Utils.lit "abandon"; Utils.lit "ability"; Utils.lit "able"]
           (fun _ => 1 # 2) 2).
  intros j. split; reflexivity || discriminate.
Defined.

(** X21: A passphrase generated with [n >= 1] words splits at its spaces into
    [n] words, also when the word list ran out and some of them are empty;
    [getUpdatedPassphrase] therefore keeps it when the request asks for [n]
    words, and generates no other (no word of the list containing a
    space). *)
Theorem getUpdatedPassphrase_keeps_generated
    (bip0039 : list (list N)) (random random' : nat -> Q) (n : Z) :
  (1 <= n)%Z ->
  Forall (fun w => Forall (fun c => c <> 32%N) w) bip0039 ->
  Z.of_nat (length (Utils.String_split
                      (Utils.generatePassphrase bip0039 random n) 32)) = n
  /\ Utils.getUpdatedPassphrase bip0039 random'
       (Some (Utils.generatePassphrase bip0039 random n))
       {| Utils.reqGeneratePassphrase := true; Utils.passphraseLength := n |}
     = Some (Utils.generatePassphrase bip0039 random n).
Proof.
  intros Hn Hwords.
  assert (Z.of_nat (length (Utils.String_split
                              (Utils.generatePassphrase bip0039 random n)
                              32)) = n) as Hcount;
    [|split; [done|]; unfold Utils.getUpdatedPassphrase; simpl;
      by rewrite Hcount, Z.eqb_refl].
  unfold Utils.generatePassphrase.
  pose proof (length_passphraseLoop random (Z.to_nat n) 0 [] bip0039)
    as Hlen.
  pose proof (passphraseLoop_Forall random
                (fun w => Forall (fun c => c <> 32%N) w)
                (Z.to_nat n) 0 [] bip0039
                ltac:(constructor) ltac:(constructor) Hwords)
    as Hall.
  destruct (Utils.passphraseLoop random (Z.to_nat n) 0 [] bip0039)
    as [|x arr]; [simpl in Hlen; lia|].
  change (Utils.lit " ") with [32%N].
  rewrite String_split_join by done.
  rewrite length_fmap, Hlen. simpl. lia.
Qed.

Lemma getUpdatedPassphrase_keeps_generated_witness :
  Z.of_nat (length (Utils.String_split
                      (Utils.generatePassphrase
                         [Utils.lit "abandon"; Utils.lit "ability";
                          Utils.lit "able"]
                         (fun _ => 1 # 2) 2) 32)) = 2%Z
  /\ Utils.getUpdatedPassphrase
       [Utils.lit "abandon"; Utils.lit "ability"; Utils.lit "able"]
       (fun _ => 0%Q)
       (Some (Utils.generatePassphrase
                [Utils.lit "abandon"; Utils.lit "ability"; Utils.lit "able"]
                (fun _ => 1 # 2) 2))
       {| Utils.reqGeneratePassphrase := true; Utils.passphraseLength := 2 |}
     = Some (Utils.generatePassphrase
               [Utils.lit "abandon"; Utils.lit "ability"; Utils.lit "able"]
               (fun _ => 1 # 2) 2).
Proof.
  apply (getUpdatedPassphrase_keeps_generated
           [Utils.lit "abandon"; Utils.lit "ability"; Utils.lit "able"]
           (fun _ => 1 # 2) (fun _ => 0%Q) 2).
  - lia.
  - repeat constructor; discriminate.
Defined.
